(** * Secure DevOps pipeline controller: a shallow embedding

    The program is one TypeScript file.  A controller holds a configuration
    and an ordered list of pipeline steps; the handler of [POST /pipeline]
    checks a keyed digest of the trigger against the [TRIGGER_TOKEN]
    environment variable and then runs the steps one after the other, each
    as a child process.

    The file has three layers:
    - [Sha256] and [Hmac]: what Node's [crypto.createHmac('sha256', key)
      .update(data).digest('hex')] computes (FIPS 180-4, RFC 2104), over
      32-bit words held in [Z];
    - [Controller]: the methods of [SecureDevOpsPipelineController], written
      as resumption trees ([Task]) whose nodes are the effects the code
      performs;
    - two readings of a [Task]: [run], which asks an oracle for the fate of
      every child process, and [EventLoop], where requests and process exits
      arrive one event at a time and several runs can be in flight. *)

From Stdlib Require Import ZArith List Ascii String Bool Lia DecimalString.
From stdpp Require Import base option strings gmap.
Import ListNotations.

Local Open Scope Z_scope.

(** ** SHA-256 *)

Module Sha256.

Definition wrap32 (x : Z) : Z := x mod 2 ^ 32.
Definition add32 (x y : Z) : Z := wrap32 (x + y).
Definition not32 (x : Z) : Z := Z.lxor x 4294967295.
Definition rotr (n x : Z) : Z :=
  Z.lor (Z.shiftr x n) (wrap32 (Z.shiftl x (32 - n))).

Definition Ch (x y z : Z) : Z := Z.lxor (Z.land x y) (Z.land (not32 x) z).
Definition Maj (x y z : Z) : Z :=
  Z.lxor (Z.lxor (Z.land x y) (Z.land x z)) (Z.land y z).
Definition bsig0 (x : Z) : Z := Z.lxor (Z.lxor (rotr 2 x) (rotr 13 x)) (rotr 22 x).
Definition bsig1 (x : Z) : Z := Z.lxor (Z.lxor (rotr 6 x) (rotr 11 x)) (rotr 25 x).
Definition ssig0 (x : Z) : Z := Z.lxor (Z.lxor (rotr 7 x) (rotr 18 x)) (Z.shiftr x 3).
Definition ssig1 (x : Z) : Z := Z.lxor (Z.lxor (rotr 17 x) (rotr 19 x)) (Z.shiftr x 10).

(** The constants of the standard are not a table of its own making: they
    are the first 32 bits of the fractional parts of the cube roots (round
    constants) and square roots (initial value) of the first primes. *)
Definition is_prime (n : nat) : bool :=
  forallb (fun d => negb (Nat.eqb (Nat.modulo n d) 0)) (seq 2 (n - 2)).

Definition primes_below (bound : nat) : list Z :=
  map Z.of_nat (List.filter is_prime (seq 2 (bound - 2))).

(** The largest [r] below [2 ^ bits] with [r ^ 3 <= n], found bit by bit. *)
Fixpoint cube_root (bits : nat) (n r : Z) : Z :=
  match bits with
  | O => r
  | S bits' =>
      let r' := r + 2 ^ Z.of_nat bits' in
      if r' * r' * r' <=? n then cube_root bits' n r' else cube_root bits' n r
  end.

Definition frac_cube_root (p : Z) : Z := wrap32 (cube_root 36 (p * 2 ^ 96) 0).
Definition frac_square_root (p : Z) : Z := wrap32 (Z.sqrt (p * 2 ^ 64)).

(** The 64 round constants, from the primes 2 to 311. *)
Definition K : list Z :=
  Eval vm_compute in map frac_cube_root (primes_below 312).

(** The eight working variables, also the chaining value. *)
Record state := State
  { va : Z; vb : Z; vc : Z; vd : Z; ve : Z; vf : Z; vg : Z; vh : Z }.

(** The initial value, from the primes 2 to 19. *)
Definition initial : state :=
  Eval vm_compute in
    State (frac_square_root 2) (frac_square_root 3) (frac_square_root 5)
          (frac_square_root 7) (frac_square_root 11) (frac_square_root 13)
          (frac_square_root 17) (frac_square_root 19).

(** Message schedule.  [recent] holds the words computed so far, the
    latest first, so that W(t-2), W(t-7), W(t-15) and W(t-16) sit at
    positions 1, 6, 14 and 15. *)
Fixpoint extend (n : nat) (recent : list Z) : list Z :=
  match n with
  | O => recent
  | S n' =>
      let w := add32 (add32 (ssig1 (nth 1 recent 0)) (nth 6 recent 0))
                     (add32 (ssig0 (nth 14 recent 0)) (nth 15 recent 0)) in
      extend n' (w :: recent)
  end.

Definition schedule (block : list Z) : list Z :=
  rev (extend 48 (rev block)).

Definition round (s : state) (kw : Z * Z) : state :=
  let t1 := add32 (add32 (add32 (vh s) (bsig1 (ve s)))
                         (add32 (Ch (ve s) (vf s) (vg s)) (fst kw))) (snd kw) in
  let t2 := add32 (bsig0 (va s)) (Maj (va s) (vb s) (vc s)) in
  State (add32 t1 t2) (va s) (vb s) (vc s) (add32 (vd s) t1) (ve s) (vf s) (vg s).

Definition compress (h : state) (block : list Z) : state :=
  let s := fold_left round (combine K (schedule block)) h in
  State (add32 (va h) (va s)) (add32 (vb h) (vb s))
        (add32 (vc h) (vc s)) (add32 (vd h) (vd s))
        (add32 (ve h) (ve s)) (add32 (vf h) (vf s))
        (add32 (vg h) (vg s)) (add32 (vh h) (vh s)).

(** Bytes are integers in [0, 256). *)
Definition be_bytes (width : nat) (x : Z) : list Z :=
  map (fun i => Z.land (Z.shiftr x (8 * Z.of_nat i)) 255) (rev (seq 0 width)).

Fixpoint be_words (bytes : list Z) : list Z :=
  match bytes with
  | b0 :: b1 :: b2 :: b3 :: rest =>
      (b0 * 16777216 + b1 * 65536 + b2 * 256 + b3) :: be_words rest
  | _ => []
  end.

Definition pad (msg : list Z) : list Z :=
  let len := Z.of_nat (List.length msg) in
  let zeros := Z.to_nat ((55 - len) mod 64) in
  msg ++ 128 :: repeat 0 zeros ++ be_bytes 8 (8 * len).

Fixpoint blocks (count : nat) (bytes : list Z) : list (list Z) :=
  match count with
  | O => []
  | S count' => be_words (firstn 64 bytes) :: blocks count' (skipn 64 bytes)
  end.

Definition digest_bytes (h : state) : list Z :=
  be_bytes 4 (va h) ++ be_bytes 4 (vb h) ++ be_bytes 4 (vc h) ++
  be_bytes 4 (vd h) ++ be_bytes 4 (ve h) ++ be_bytes 4 (vf h) ++
  be_bytes 4 (vg h) ++ be_bytes 4 (vh h).

Definition sha256 (msg : list Z) : list Z :=
  let padded := pad msg in
  digest_bytes
    (fold_left compress (blocks (List.length padded / 64) padded) initial).

End Sha256.

(** ** HMAC-SHA256 and the hex digest *)

Module Hmac.

Definition block_size : nat := 64.

Definition bytes_of_string (s : string) : list Z :=
  map (fun c => Z.of_N (N_of_ascii c)) (list_ascii_of_string s).

Definition normalise_key (key : list Z) : list Z :=
  let k := if Nat.ltb block_size (List.length key)
           then Sha256.sha256 key else key in
  k ++ repeat 0 (block_size - List.length k).

Definition hmac_sha256 (key msg : list Z) : list Z :=
  let k := normalise_key key in
  let inner := Sha256.sha256 (map (Z.lxor 0x36) k ++ msg) in
  Sha256.sha256 (map (Z.lxor 0x5c) k ++ inner).

Definition hex_digit (n : Z) : ascii :=
  nth (Z.to_nat n)
      (list_ascii_of_string "0123456789abcdef") "0"%char.

Fixpoint hex (bytes : list Z) : string :=
  match bytes with
  | [] => EmptyString
  | b :: rest =>
      String (hex_digit (Z.shiftr b 4))
             (String (hex_digit (Z.land b 15)) (hex rest))
  end.

(** [crypto.createHmac('sha256', key).update(data).digest('hex')] for
    string arguments; a [string] here is the UTF-8 encoding of the
    JavaScript string. *)
Definition hmac_sha256_hex (key data : string) : string :=
  hex (hmac_sha256 (bytes_of_string key) (bytes_of_string data)).

End Hmac.

Local Open Scope string_scope.
Local Open Scope list_scope.

(** ** JavaScript values the handler meets *)

Module Js.

(** An [Error] object: [name] is "Error", "TypeError", ... *)
Record Error := MkError { name : string; message : string }.

Definition new_Error (msg : string) : Error := MkError "Error" msg.

(** [Error.prototype.toString], which a template literal applies. *)
Definition toString (e : Error) : string :=
  if String.eqb (name e) "" then message e
  else if String.eqb (message e) "" then name e
  else name e +:+ ": " +:+ message e.

(** A value of the parsed JSON body.  Arrays and objects are always
    truthy and never strings, so their contents are left out. *)
Inductive Json :=
| JNull
| JBool (b : bool)
| JNumber (n : Z)
| JString (s : string)
| JArray
| JObject.

(** [!v] is [negb (truthy v)]; [None] is [undefined], a missing field. *)
Definition truthy (v : option Json) : bool :=
  match v with
  | None => false
  | Some JNull => false
  | Some (JBool b) => b
  | Some (JNumber n) => negb (n =? 0)%Z
  | Some (JString s) => negb (String.eqb s "")
  | Some JArray => true
  | Some JObject => true
  end.

(** [a !== b] where [a] is a string and [b] a string or [undefined]. *)
Definition strict_neq (a : string) (b : option string) : bool :=
  match b with
  | Some b' => negb (String.eqb a b')
  | None => true
  end.

(** The exit code in a template literal: a number, or [null] when the
    child was ended by a signal. *)
Definition show_code (code : option Z) : string :=
  match code with
  | Some z => NilZero.string_of_int (Z.to_int z)
  | None => "null"
  end.

(** [code === 0]. *)
Definition is_zero (code : option Z) : bool :=
  match code with
  | Some z => (z =? 0)%Z
  | None => false
  end.

End Js.

(** ** Effects *)

Abbreviation Env := (gmap string string).

Inductive Stream := Stdout | Stderr.

Record Response := MkResponse { status : Z; body : string }.

(** What evaluating [childProcess.exec(command, options)] and waiting for
    the ['exit'] event yields: the call itself throws, or the child ends
    with a code. *)
Inductive Spawned :=
| Faulted (e : Js.Error)
| Exited (code : option Z).

(** A computation of the controller as a tree of the effects it performs;
    the continuation of a node takes what the effect returns. *)
Inductive Task (A : Type) : Type :=
| Ret (a : A)
| Throw (e : Js.Error)
| ConsoleLog (line : string) (k : Task A)
| Send (r : Response) (k : Task A)
| CreateHmac (key data : string) (k : string -> Task A)
| GetEnv (var : string) (k : option string -> Task A)
| Exec (command : string) (env : option Env) (k : Spawned -> Task A).

Arguments Ret {A} a.
Arguments Throw {A} e.
Arguments ConsoleLog {A} line k.
Arguments Send {A} r k.
Arguments CreateHmac {A} key data k.
Arguments GetEnv {A} var k.
Arguments Exec {A} command env k.

(** [await t; f] inside an async function, and [p.then(f)]. *)
Fixpoint bind {A B : Type} (t : Task A) (f : A -> Task B) : Task B :=
  match t with
  | Ret a => f a
  | Throw e => Throw e
  | ConsoleLog line k => ConsoleLog line (bind k f)
  | Send r k => Send r (bind k f)
  | CreateHmac key data k => CreateHmac key data (fun d => bind (k d) f)
  | GetEnv var k => GetEnv var (fun v => bind (k v) f)
  | Exec command env k => Exec command env (fun r => bind (k r) f)
  end.

(** [p.catch(h)]. *)
Fixpoint catch {A : Type} (t : Task A) (h : Js.Error -> Task A) : Task A :=
  match t with
  | Ret a => Ret a
  | Throw e => h e
  | ConsoleLog line k => ConsoleLog line (catch k h)
  | Send r k => Send r (catch k h)
  | CreateHmac key data k => CreateHmac key data (fun d => catch (k d) h)
  | GetEnv var k => GetEnv var (fun v => catch (k v) h)
  | Exec command env k => Exec command env (fun r => catch (k r) h)
  end.

(** [Hmac.update] refuses anything that is not a string or a buffer. *)
Definition invalid_arg_type : Js.Error :=
  Js.MkError "TypeError" "ERR_INVALID_ARG_TYPE".

(** [crypto.createHmac('sha256', key).update(data).digest('hex')] with
    [data] taken from the request body: a throw unless it is a string. *)
Definition createHmac_update_digest {A : Type} (key : string)
    (data : option Js.Json) (k : string -> Task A) : Task A :=
  match data with
  | Some (Js.JString s) => CreateHmac key s k
  | _ => Throw invalid_arg_type
  end.

(** ** The controller *)

Module Controller.

Record IConfig := MkConfig
  { pipelineName : string;
    gitRepoUrl : string;
    deploymentEnvironment : string;
    tlsCertificate : string;
    tlsKey : string }.

Record IPipelineStep := MkStep
  { name : string;
    command : string;
    environmentVariables : Env }.

Record TlsOptions := MkTls { key : string; cert : string }.

Record SecureDevOpsPipelineController := MkController
  { config : IConfig;
    pipelineSteps : list IPipelineStep;
    tlsOptions : TlsOptions }.

(** [readFileSync] is the file system at start-up, read below
    [__dirname]. *)
Definition constructor (readFileSync : string -> string) (config : IConfig)
  : SecureDevOpsPipelineController :=
  {| config := config;
     pipelineSteps := [];
     tlsOptions := {| key := readFileSync (tlsKey config);
                      cert := readFileSync (tlsCertificate config) |} |}.

Definition addPipelineStep (this : SecureDevOpsPipelineController)
    (step : IPipelineStep) : SecureDevOpsPipelineController :=
  {| config := config this;
     pipelineSteps := pipelineSteps this ++ [step];
     tlsOptions := tlsOptions this |}.

(** Line 77 evaluates [childProcess.exec(command, { env })]; the two data
    listeners and the wait for ['exit'] belong to the [Exec] node.  A
    throw on line 77 rejects the promise of the async function.

    As the line is written the constant [childProcess] is read inside its
    own initialiser (and [child_process] is not imported), so the call
    throws before any child starts: on the file as written the answer is
    always [Faulted], and the listeners of lines 78-93, transcribed in
    the [Exited] branch, are never registered.  The branch is kept so
    that the definition follows the text of the function; a property
    that speaks of an exit is stated over every world, and the worlds of
    the file as written are those of [never_spawns] below. *)
Definition executeCommand (command : string) (environmentVariables : Env)
  : Task unit :=
  Exec command (Some environmentVariables) (fun r =>
    match r with
    | Faulted e => Throw e
    | Exited code =>
        if Js.is_zero code then Ret tt
        else Throw (Js.new_Error
                      ("Command failed with code " +:+ Js.show_code code))
    end).

Fixpoint executeSteps (steps : list IPipelineStep) : Task unit :=
  match steps with
  | [] => Ret tt
  | step :: rest =>
      ConsoleLog ("Executing step: " +:+ name step)
        (bind (executeCommand (command step) (environmentVariables step))
              (fun _ => executeSteps rest))
  end.

(** The [for ... of] loop over [this.pipelineSteps]; the list is filled
    before the server starts and is not changed afterwards. *)
Definition executePipelineSteps (this : SecureDevOpsPipelineController)
  : Task unit :=
  executeSteps (pipelineSteps this).

Definition unauthorized : Response := MkResponse 401 "Unauthorized".

(** [res.send] without [res.status] answers 200. *)
Definition executed : Response :=
  MkResponse 200 "Pipeline executed successfully".

Definition failed (err : Js.Error) : Response :=
  MkResponse 500 ("Error executing pipeline: " +:+ Js.toString err).

(** Lines 56-60: [executePipelineSteps().then(...).catch(...)]. *)
Definition respond (this : SecureDevOpsPipelineController) : Task unit :=
  catch (bind (executePipelineSteps this) (fun _ => Send executed (Ret tt)))
        (fun err => Send (failed err) (Ret tt)).

(** The callback of [app.post('/pipeline', ...)]; [trigger] is
    [req.body.trigger], [None] when the parsed body has no such field. *)
Definition postPipeline (this : SecureDevOpsPipelineController)
    (trigger : option Js.Json) : Task unit :=
  if negb (Js.truthy trigger) then Send unauthorized (Ret tt)
  else
    createHmac_update_digest (pipelineName (config this)) trigger
      (fun triggerToken =>
         GetEnv "TRIGGER_TOKEN" (fun TRIGGER_TOKEN =>
           if Js.strict_neq triggerToken TRIGGER_TOKEN
           then Send unauthorized (Ret tt)
           else respond this)).

(** The top level of the file: the configuration comes from the command
    line and two steps are added. *)
Definition main (readFileSync : string -> string) (argv : IConfig)
  : SecureDevOpsPipelineController :=
  let controller := constructor readFileSync argv in
  let controller := addPipelineStep controller
    {| name := "Build";
       command := "npm run build";
       environmentVariables := {[ "NODE_ENV" := "production" ]} |} in
  addPipelineStep controller
    {| name := "Deploy";
       command := "docker deploy -p " +:+ deploymentEnvironment argv;
       environmentVariables :=
         {[ "DEPLOYMENT_ENVIRONMENT" := deploymentEnvironment argv ]} |}.

End Controller.

(** ** The world outside the controller *)

(** The fate of one call of [childProcess.exec]: the call throws, or a
    child runs, writes chunks to its two streams and ends with a code. *)
Inductive Process :=
| SpawnFault (e : Js.Error)
| Terminates (output : list (Stream * string)) (code : option Z).

(** [process.env], and the fate of the [n]-th call of [exec] given the
    command line and the environment the child receives. *)
Record World := MkWorld
  { process_env : Env;
    child_process_exec : nat -> string -> Env -> Process }.

(** Node hands the child [options.env], and [process.env] only when the
    option is absent. *)
Definition child_env (w : World) (options_env : option Env) : Env :=
  default (process_env w) options_env.

Inductive Event :=
| EvConsole (s : Stream) (line : string)
| EvSend (r : Response)
| EvHmac (key data : string)
| EvGetEnv (var : string)
| EvSpawn (command : string) (env : Env).

(** The two data listeners of [executeCommand]. *)
Definition data_line (d : Stream * string) : Event :=
  match fst d with
  | Stdout => EvConsole Stdout (" stdout: " +:+ snd d)
  | Stderr => EvConsole Stderr (" stderr: " +:+ snd d)
  end.

Inductive Outcome (A : Type) : Type :=
| Resolved (a : A)
| Rejected (e : Js.Error).

Arguments Resolved {A} a.
Arguments Rejected {A} e.

(** What one task did: the effects in order, the number of [exec] calls
    made so far in the life of the server, and how the task ended. *)
Record Run (A : Type) := MkRun
  { trace : list Event;
    execs : nat;
    outcome : Outcome A }.

Arguments MkRun {A} trace execs outcome.
Arguments trace {A} r.
Arguments execs {A} r.
Arguments outcome {A} r.

Definition emit {A : Type} (evs : list Event) (r : Run A) : Run A :=
  MkRun (evs ++ trace r) (execs r) (outcome r).

(** A task run to its end, every child process answering as the oracle
    says; [n] counts the calls of [exec] already made. *)
Fixpoint run {A : Type} (w : World) (n : nat) (t : Task A) : Run A :=
  match t with
  | Ret a => MkRun [] n (Resolved a)
  | Throw e => MkRun [] n (Rejected e)
  | ConsoleLog line k => emit [EvConsole Stdout line] (run w n k)
  | Send r k => emit [EvSend r] (run w n k)
  | CreateHmac key data k =>
      emit [EvHmac key data] (run w n (k (Hmac.hmac_sha256_hex key data)))
  | GetEnv var k => emit [EvGetEnv var] (run w n (k (process_env w !! var)))
  | Exec command env k =>
      match child_process_exec w n command (child_env w env) with
      | SpawnFault e => run w (S n) (k (Faulted e))
      | Terminates output code =>
          emit (EvSpawn command (child_env w env) :: map data_line output)
               (run w (S n) (k (Exited code)))
      end
  end.

(** *** What a trace shows *)

Fixpoint sent (tr : list Event) : list Response :=
  match tr with
  | [] => []
  | EvSend r :: rest => r :: sent rest
  | _ :: rest => sent rest
  end.

Fixpoint spawns (tr : list Event) : list (string * Env) :=
  match tr with
  | [] => []
  | EvSpawn command env :: rest => (command, env) :: spawns rest
  | _ :: rest => spawns rest
  end.

Fixpoint hmacs (tr : list Event) : list (string * string) :=
  match tr with
  | [] => []
  | EvHmac key data :: rest => (key, data) :: hmacs rest
  | _ :: rest => hmacs rest
  end.

(** The spawn a step asks for. *)
Definition spawn_of (step : Controller.IPipelineStep) : string * Env :=
  (Controller.command step, Controller.environmentVariables step).

(** ** Shapes of tasks *)

(** Every answer a task can send satisfies [P]. *)
Fixpoint answers {A : Type} (P : Response -> Prop) (t : Task A) : Prop :=
  match t with
  | Ret _ => True
  | Throw _ => True
  | ConsoleLog _ k => answers P k
  | Send r k => P r /\ answers P k
  | CreateHmac _ _ k => forall d, answers P (k d)
  | GetEnv _ k => forall v, answers P (k v)
  | Exec _ _ k => forall r, answers P (k r)
  end.

(** A task that is done once it has answered. *)
Fixpoint answers_last (t : Task unit) : Prop :=
  match t with
  | Ret _ => True
  | Throw _ => True
  | ConsoleLog _ k => answers_last k
  | Send _ k => k = Ret tt
  | CreateHmac _ _ k => forall d, answers_last (k d)
  | GetEnv _ k => forall v, answers_last (k v)
  | Exec _ _ k => forall r, answers_last (k r)
  end.

(** The statuses the handler can answer with. *)
Definition known_status (r : Response) : Prop :=
  status r = 200%Z \/ status r = 401%Z \/ status r = 500%Z.

Definition nothing : Response -> Prop := fun _ => False.

(** The line the loop logs before a step. *)
Definition announce (step : Controller.IPipelineStep) : Event :=
  EvConsole Stdout ("Executing step: " +:+ Controller.name step).

(** ** The event loop

    Node runs one callback at a time.  A handler runs until it waits for a
    child to exit; its continuation is parked under the number of its
    request, and other requests are served meanwhile. *)

Module EventLoop.

(** The server between two callbacks: the number the next request gets,
    the calls of [exec] made so far, the continuations waiting for a child
    (oldest first), every effect so far under the number of its request,
    and the errors thrown out of a handler, which are left to the HTTP
    layer. *)
Record Loop := MkLoop
  { next_request : nat;
    exec_calls : nat;
    inflight : list (nat * (Spawned -> Task unit));
    journal : list (nat * Event);
    escaped : list (nat * Js.Error) }.

Definition initial : Loop := MkLoop 0 0 [] [] [].

Definition record_event (rid : nat) (ev : Event) (st : Loop) : Loop :=
  MkLoop (next_request st) (exec_calls st) (inflight st)
         (journal st ++ [(rid, ev)]) (escaped st).

Definition record_escape (rid : nat) (e : Js.Error) (st : Loop) : Loop :=
  MkLoop (next_request st) (exec_calls st) (inflight st)
         (journal st) (escaped st ++ [(rid, e)]).

Definition count_exec (st : Loop) : Loop :=
  MkLoop (next_request st) (S (exec_calls st)) (inflight st)
         (journal st) (escaped st).

Definition park (rid : nat) (k : Spawned -> Task unit) (st : Loop) : Loop :=
  MkLoop (next_request st) (exec_calls st) (inflight st ++ [(rid, k)])
         (journal st) (escaped st).

(** A request arrives and takes the next number. *)
Definition accept_request (st : Loop) : Loop :=
  MkLoop (S (next_request st)) (exec_calls st) (inflight st)
         (journal st) (escaped st).

(** A parked continuation is taken out to be resumed. *)
Definition unpark (rest : list (nat * (Spawned -> Task unit))) (st : Loop)
  : Loop :=
  MkLoop (next_request st) (exec_calls st) rest (journal st) (escaped st).

(** The synchronous part of a task: up to the next wait for a child.  Of
    the oracle only whether [exec] throws is used; output and exit code
    arrive later as inputs of the loop. *)
Fixpoint drive (w : World) (rid : nat) (t : Task unit) (st : Loop) : Loop :=
  match t with
  | Ret _ => st
  | Throw e => record_escape rid e st
  | ConsoleLog line k => drive w rid k (record_event rid (EvConsole Stdout line) st)
  | Send r k => drive w rid k (record_event rid (EvSend r) st)
  | CreateHmac key data k =>
      drive w rid (k (Hmac.hmac_sha256_hex key data))
            (record_event rid (EvHmac key data) st)
  | GetEnv var k =>
      drive w rid (k (process_env w !! var)) (record_event rid (EvGetEnv var) st)
  | Exec command env k =>
      match child_process_exec w (exec_calls st) command (child_env w env) with
      | SpawnFault e => drive w rid (k (Faulted e)) (count_exec st)
      | Terminates _ _ =>
          park rid k (record_event rid (EvSpawn command (child_env w env))
                                   (count_exec st))
      end
  end.

Inductive Input :=
| Incoming (trigger : option Js.Json)
| ChildData (request : nat) (chunk : Stream * string)
| ChildExit (request : nat) (code : option Z).

Fixpoint take {K : Type} (rid : nat) (l : list (nat * K))
  : option (K * list (nat * K)) :=
  match l with
  | [] => None
  | (r, k) :: rest =>
      if Nat.eqb r rid then Some (k, rest)
      else match take rid rest with
           | Some (k', rest') => Some (k', (r, k) :: rest')
           | None => None
           end
  end.

Definition deliver (w : World)
    (this : Controller.SecureDevOpsPipelineController)
    (st : Loop) (i : Input) : Loop :=
  match i with
  | Incoming trigger =>
      drive w (next_request st) (Controller.postPipeline this trigger)
            (accept_request st)
  | ChildData rid chunk =>
      match take rid (inflight st) with
      | Some _ => record_event rid (data_line chunk) st
      | None => st
      end
  | ChildExit rid code =>
      match take rid (inflight st) with
      | Some (k, rest) =>
          drive w rid (k (Exited code)) (unpark rest st)
      | None => st
      end
  end.

Definition deliver_all (w : World)
    (this : Controller.SecureDevOpsPipelineController)
    (st : Loop) (inputs : list Input) : Loop :=
  fold_left (deliver w this) inputs st.

(** No run is in flight. *)
Definition idle (st : Loop) : bool :=
  match inflight st with
  | [] => true
  | _ :: _ => false
  end.

Definition running (st : Loop) : list nat := map fst (inflight st).

(** The events of one request, in order. *)
Definition events_of (rid : nat) (st : Loop) : list Event :=
  map snd (List.filter (fun e => Nat.eqb (fst e) rid) (journal st)).

(** A request is over when its answer went out or its handler threw. *)
Definition finished (rid : nat) (st : Loop) : bool :=
  match sent (events_of rid st) with
  | _ :: _ => true
  | [] => existsb (fun e => Nat.eqb (fst e) rid) (escaped st)
  end.

(** The inputs that the children of one task feed the loop when they
    behave as the oracle says: for each child its chunks, then its exit. *)
Fixpoint script {A : Type} (w : World) (rid n : nat) (t : Task A)
  : list Input :=
  match t with
  | Ret _ => []
  | Throw _ => []
  | ConsoleLog _ k => script w rid n k
  | Send _ k => script w rid n k
  | CreateHmac key data k => script w rid n (k (Hmac.hmac_sha256_hex key data))
  | GetEnv var k => script w rid n (k (process_env w !! var))
  | Exec command env k =>
      match child_process_exec w n command (child_env w env) with
      | SpawnFault e => script w rid (S n) (k (Faulted e))
      | Terminates out code =>
          map (ChildData rid) out
          ++ ChildExit rid code :: script w rid (S n) (k (Exited code))
      end
  end.

(** No continuation is parked under the number [rid]. *)
Definition not_parked (rid : nat) (st : Loop) : Prop :=
  forall e, In e (inflight st) -> fst e <> rid.

(** What a run adds to the list of escaped errors. *)
Definition escape_of {A : Type} (rid : nat) (o : Outcome A)
  : list (nat * Js.Error) :=
  match o with
  | Resolved _ => []
  | Rejected e => [(rid, e)]
  end.

(** An input that comes from a child process, not from a client. *)
Definition from_child (i : Input) : bool :=
  match i with
  | Incoming _ => false
  | ChildData _ _ => true
  | ChildExit _ _ => true
  end.

(** Requests are numbered as they arrive: every number in the journal and
    in the list of escaped errors is below the next number. *)
Definition well_numbered (st : Loop) : Prop :=
  Forall (fun e => (fst e < next_request st)%nat) (journal st)
  /\ Forall (fun e => (fst e < next_request st)%nat) (escaped st)
  /\ Forall (fun e => (fst e < next_request st)%nat) (inflight st).

(** At most the run of request [rid] is in flight, and while it is, the
    request has not been answered and answers only at its end. *)
Definition single_run (rid : nat) (st : Loop) : Prop :=
  inflight st = []
  \/ exists k : Spawned -> Task unit,
       inflight st = [(rid, k)]
       /\ finished rid st = false
       /\ forall r : Spawned, answers_last (k r).

(** Every answer sent so far, and every answer a parked continuation can
    still send, satisfies [P]. *)
Definition answers_only (P : Response -> Prop) (st : Loop) : Prop :=
  Forall P (sent (map snd (journal st)))
  /\ Forall (fun e => forall r : Spawned, answers P (snd e r)) (inflight st).

End EventLoop.

(** ** Vocabulary of the statements *)

(** The request was answered 401. *)
Definition rejected (tr : list Event) : bool :=
  existsb (fun r => (status r =? 401)%Z) (sent tr).

(** [needle] occurs somewhere in [hay]. *)
Fixpoint contains (needle hay : string) : bool :=
  match hay with
  | EmptyString => String.prefix needle hay
  | String _ rest => String.prefix needle hay || contains needle rest
  end.

(** One bit of one character of a token inverted; bit 0 is the lowest. *)
Definition flip_ascii (j : nat) (c : ascii) : ascii :=
  let 'Ascii b0 b1 b2 b3 b4 b5 b6 b7 := c in
  match j with
  | 0%nat => Ascii (negb b0) b1 b2 b3 b4 b5 b6 b7
  | 1%nat => Ascii b0 (negb b1) b2 b3 b4 b5 b6 b7
  | 2%nat => Ascii b0 b1 (negb b2) b3 b4 b5 b6 b7
  | 3%nat => Ascii b0 b1 b2 (negb b3) b4 b5 b6 b7
  | 4%nat => Ascii b0 b1 b2 b3 (negb b4) b5 b6 b7
  | 5%nat => Ascii b0 b1 b2 b3 b4 (negb b5) b6 b7
  | 6%nat => Ascii b0 b1 b2 b3 b4 b5 (negb b6) b7
  | 7%nat => Ascii b0 b1 b2 b3 b4 b5 b6 (negb b7)
  | _ => c
  end.

Fixpoint flip_bit (i j : nat) (s : string) : string :=
  match s with
  | EmptyString => EmptyString
  | String c rest =>
      match i with
      | O => String (flip_ascii j c) rest
      | S i' => String c (flip_bit i' j rest)
      end
  end.

(** The child of a step ends with the given code: the [n]-th call of
    [exec], made for this step, starts a child that exits with it. *)
Definition exits_with (w : World) (n : nat) (step : Controller.IPipelineStep)
    (code : option Z) : Prop :=
  exists output,
    child_process_exec w n (Controller.command step)
                       (Controller.environmentVariables step)
    = Terminates output code.

(** Every step of the list, run in order from call [n] on, exits with 0. *)
Definition all_exit_zero (w : World) (n : nat)
    (steps : list Controller.IPipelineStep) : Prop :=
  forall (i : nat) (step : Controller.IPipelineStep),
    steps !! i = Some step -> exits_with w (n + i) step (Some 0%Z).

(** A trigger the handler lets through: a non-empty string whose digest
    under the pipeline name is the value of [TRIGGER_TOKEN]. *)
Definition valid_trigger (w : World)
    (this : Controller.SecureDevOpsPipelineController) (t : string) : Prop :=
  t <> "" /\
  process_env w !! "TRIGGER_TOKEN" =
    Some (Hmac.hmac_sha256_hex
            (Controller.pipelineName (Controller.config this)) t).

(** *** Concrete inputs: the program as started by the file *)

Module Sample.

Definition argv : Controller.IConfig :=
  Controller.MkConfig "release" "git@example.org:app.git" "staging"
                      "cert.pem" "key.pem".

Definition controller : Controller.SecureDevOpsPipelineController :=
  Controller.main (fun _ => "") argv.

Definition go : option Js.Json := Some (Js.JString "go").

(** [TRIGGER_TOKEN] as the code expects it for the trigger "go". *)
Definition token : string := Hmac.hmac_sha256_hex "release" "go".

Definition base_env : Env :=
  {[ "TRIGGER_TOKEN" := token; "PATH" := "/usr/bin" ]}.

(** Every child exits with 0. *)
Definition all_pass : World :=
  MkWorld base_env (fun _ _ _ => Terminates [(Stdout, "ok")] (Some 0%Z)).

(** The second call of [exec] throws. *)
Definition deploy_faults : World :=
  MkWorld base_env (fun n _ _ =>
    if Nat.eqb n 1 then SpawnFault (Js.MkError "Error" "spawn EAGAIN")
    else Terminates [] (Some 0%Z)).

(** Line 77 as written reads the constant [childProcess] inside its own
    initialiser, so every call throws before a child starts. *)
Definition as_written : World :=
  MkWorld base_env (fun _ _ _ =>
    SpawnFault (Js.MkError "ReferenceError"
      "Cannot access 'childProcess' before initialization")).

(** The token is the digest of the empty trigger under the pipeline name. *)
Definition empty_trigger : World :=
  MkWorld {[ "TRIGGER_TOKEN" := Hmac.hmac_sha256_hex "release" "" ]}
          (fun _ _ _ => Terminates [] (Some 0%Z)).

(** The token is the digest under a secret that is not the pipeline name. *)
Definition keyed_by_secret : World :=
  MkWorld {[ "TRIGGER_TOKEN" := Hmac.hmac_sha256_hex "s3cret" "go" ]}
          (fun _ _ _ => Terminates [] (Some 0%Z)).

(** A third step after Build and Deploy. *)
Definition with_notify : Controller.SecureDevOpsPipelineController :=
  Controller.addPipelineStep controller
    {| Controller.name := "Notify";
       Controller.command := "curl -d done https://chat.example.org/hook";
       Controller.environmentVariables := ∅ |}.

(** Another pipeline, with other names, commands and environments. *)
Definition lint_then_test : list Controller.IPipelineStep :=
  [ {| Controller.name := "Lint";
       Controller.command := "npm run lint";
       Controller.environmentVariables := ∅ |};
    {| Controller.name := "Test";
       Controller.command := "npm test";
       Controller.environmentVariables := {[ "CI" := "1" ]} |} ].

(** Line 77 taken as written: the request is let through and the first
    call of [exec] throws. *)
Definition as_written_run : Run unit :=
  run as_written 0 (Controller.postPipeline controller go).

End Sample.

(** ** Further vocabulary *)

(** Steps added one after the other, as the top level of the file does. *)
Definition add_all (this : Controller.SecureDevOpsPipelineController)
    (steps : list Controller.IPipelineStep)
  : Controller.SecureDevOpsPipelineController :=
  fold_left Controller.addPipelineStep steps this.

(** A character of a lower-case hex digest. *)
Definition is_lower_hex (c : ascii) : bool :=
  existsb (Ascii.eqb c) (list_ascii_of_string "0123456789abcdef").

Fixpoint all_chars (p : ascii -> bool) (s : string) : bool :=
  match s with
  | EmptyString => true
  | String c rest => p c && all_chars p rest
  end.

(** The events filed under one request in a journal. *)
Definition events_in (rid : nat) (j : list (nat * Event)) : list Event :=
  map snd (List.filter (fun e => Nat.eqb (fst e) rid) j).

(** The loop is in order: requests are well numbered, no two parked
    continuations belong to one request, a request whose continuation is
    parked has not been answered and its continuation answers last, and
    no request has been answered twice. *)
Definition orderly (st : EventLoop.Loop) : Prop :=
  EventLoop.well_numbered st
  /\ List.NoDup (map fst (EventLoop.inflight st))
  /\ Forall (fun e : nat * (Spawned -> Task unit) =>
               sent (EventLoop.events_of (fst e) st) = []
               /\ forall r : Spawned, answers_last (snd e r))
            (EventLoop.inflight st)
  /\ forall rid : nat,
       (List.length (sent (EventLoop.events_of rid st)) <= 1)%nat.

(** A task that calls [exec] along a plan: each call is for the next
    command and environment of the plan, after a call that throws there
    is no further call, and after a child has exited the rest of the plan
    is followed. *)
Fixpoint follows {A : Type} (plan : list (string * Env)) (t : Task A) : Prop :=
  match t with
  | Ret _ => True
  | Throw _ => True
  | ConsoleLog _ k => follows plan k
  | Send _ k => follows plan k
  | CreateHmac _ _ k => forall d, follows plan (k d)
  | GetEnv _ k => forall v, follows plan (k v)
  | Exec command env k =>
      match plan with
      | [] => False
      | p :: rest =>
          command = fst p /\ env = Some (snd p)
          /\ (forall e, follows [] (k (Faulted e)))
          /\ (forall code, follows rest (k (Exited code)))
      end
  end.

(** In the loop every request is on the plan: the children started for it
    so far are the first of the plan, and a parked continuation follows
    what is left of it. *)
Definition on_plan (plan : list (string * Env)) (st : EventLoop.Loop) : Prop :=
  Forall (fun e : nat * (Spawned -> Task unit) =>
            exists rest : list (string * Env),
              plan = spawns (EventLoop.events_of (fst e) st) ++ rest
              /\ (forall err, follows [] (snd e (Faulted err)))
              /\ (forall code, follows rest (snd e (Exited code))))
         (EventLoop.inflight st)
  /\ forall rid : nat,
       exists rest : list (string * Env),
         plan = spawns (EventLoop.events_of rid st) ++ rest.

(** *** Further concrete inputs *)

Module More.

(** A token that is not a digest. *)
Definition plain_token : World :=
  MkWorld {[ "TRIGGER_TOKEN" := "letmein" ]}
          (fun _ _ _ => Terminates [] (Some 0%Z)).

(** A controller to which no step was added. *)
Definition bare : Controller.SecureDevOpsPipelineController :=
  Controller.constructor (fun _ => "") Sample.argv.

End More.

(** ** The code as written *)

(** The worlds the code as written can meet.  Line 77 reads the constant
    [childProcess] inside its own initialiser, so every evaluation of the
    line throws (which error depends on the compilation target) and no
    child ever starts. *)
Definition never_spawns (w : World) : Prop :=
  forall (n : nat) (command : string) (env : Env),
    exists e : Js.Error, child_process_exec w n command env = SpawnFault e.

Module Written.

(** The error of line 77 under an ES2015 target. *)
Definition thrown : Js.Error :=
  Js.MkError "ReferenceError"
             "Cannot access 'childProcess' before initialization".

(** An authorised request has been handled. *)
Definition first_served : EventLoop.Loop :=
  EventLoop.deliver Sample.as_written Sample.controller EventLoop.initial
                    (EventLoop.Incoming Sample.go).

(** A second authorised request has been handled right after it. *)
Definition both_served : EventLoop.Loop :=
  EventLoop.deliver Sample.as_written Sample.controller first_served
                    (EventLoop.Incoming Sample.go).

End Written.

(** * Properties *)

(** ** The digest *)

(** Published test vectors: FIPS 180-4 examples and RFC 4231, test case 2. *)

Example sha256_empty :
  Hmac.hex (Sha256.sha256 []) =
  "e3b0c44298fc1c149afbf4c8996fb92427ae41e4649b934ca495991b7852b855".
Proof. vm_compute. reflexivity. Qed.

Example sha256_abc :
  Hmac.hex (Sha256.sha256 (Hmac.bytes_of_string "abc")) =
  "ba7816bf8f01cfea414140de5dae2223b00361a396177a9cb410ff61f20015ad".
Proof. vm_compute. reflexivity. Qed.

Example sha256_two_blocks :
  Hmac.hex (Sha256.sha256 (Hmac.bytes_of_string
    "abcdbcdecdefdefgefghfghighijhijkijkljklmklmnlmnomnopnopq")) =
  "248d6a61d20638b8e5c026930c3e6039a33ce45964ff2167f6ecedd419db06c1".
Proof. vm_compute. reflexivity. Qed.

Example hmac_rfc4231_case2 :
  Hmac.hmac_sha256_hex "Jefe" "what do ya want for nothing?" =
  "5bdcc146bf60754e6a042426089575c75a003f089d2739839dec58b964ec3843".
Proof. vm_compute. reflexivity. Qed.

Example hmac_rfc4231_case6 :
  Hmac.hex (Hmac.hmac_sha256 (repeat 0xaa 131) (Hmac.bytes_of_string
    "Test Using Larger Than Block-Size Key - Hash Key First")) =
  "60e431591ee0b67f0d8a26aacbf5b77f8e0bc6213728c5140546040f0ee37f54".
Proof. vm_compute. reflexivity. Qed.


(** The digest is only ever computed on closed inputs. *)
Arguments Hmac.hmac_sha256_hex : simpl never.

Lemma be_bytes_length (width : nat) (x : Z) :
  List.length (Sha256.be_bytes width x) = width.
Proof.
  unfold Sha256.be_bytes.
  rewrite List.length_map, List.length_rev, List.length_seq. reflexivity.
Qed.

Lemma sha256_length (msg : list Z) :
  List.length (Sha256.sha256 msg) = 32%nat.
Proof.
  unfold Sha256.sha256, Sha256.digest_bytes.
  repeat rewrite List.length_app. repeat rewrite be_bytes_length. reflexivity.
Qed.

Lemma hex_length (bytes : list Z) :
  String.length (Hmac.hex bytes) = (2 * List.length bytes)%nat.
Proof.
  induction bytes as [|b rest IH]; simpl; [reflexivity|].
  rewrite IH. lia.
Qed.

(** The hex digest is always 64 characters long. *)
Lemma hmac_sha256_hex_length (key data : string) :
  String.length (Hmac.hmac_sha256_hex key data) = 64%nat.
Proof.
  unfold Hmac.hmac_sha256_hex, Hmac.hmac_sha256.
  rewrite hex_length, sha256_length. reflexivity.
Qed.

Lemma flip_ascii_neq (j : nat) (c : ascii) :
  (j < 8)%nat -> flip_ascii j c <> c.
Proof.
  intros Hj. destruct c as [b0 b1 b2 b3 b4 b5 b6 b7].
  do 8 (destruct j as [|j]; [simpl; intros E; injection E; intros;
    repeat match goal with H : negb ?b = ?b |- _ => destruct b; discriminate H end|]).
  lia.
Qed.

(** Inverting a bit inside a token gives another token. *)
Lemma flip_bit_neq (s : string) : forall i j : nat,
  (i < String.length s)%nat -> (j < 8)%nat -> flip_bit i j s <> s.
Proof.
  induction s as [|c rest IH]; intros i j Hi Hj; simpl in Hi; [lia|].
  destruct i as [|i]; simpl; intros E; injection E.
  - intros Ec. exact (flip_ascii_neq j c Hj Ec).
  - intros Er. apply (IH i j); [lia | assumption | exact Er].
Qed.

Lemma strict_neq_false (a : string) (b : option string) :
  Js.strict_neq a b = false <-> b = Some a.
Proof.
  destruct b as [b|]; simpl.
  - rewrite negb_false_iff, String.eqb_eq. split; congruence.
  - split; discriminate.
Qed.

(** ** Running a task against the oracle *)

Section RunLaws.

Context (w : World).

Lemma emit_nil {A : Type} (r : Run A) : emit [] r = r.
Proof. destruct r; reflexivity. Qed.

Lemma emit_emit {A : Type} (xs ys : list Event) (r : Run A) :
  emit xs (emit ys r) = emit (xs ++ ys) r.
Proof. unfold emit; simpl. rewrite List.app_assoc. reflexivity. Qed.

(** Rewrites with the induction hypothesis and splits on how the rest of
    the task ended. *)
Ltac by_rest IH r :=
  rewrite IH; destruct r as [tr m [a|e]];
  unfold emit; simpl; try rewrite <- List.app_assoc; reflexivity.

(** [await t; f]: [f] runs after [t] when [t] resolves, and a rejection
    of [t] is the rejection of the whole. *)
Lemma run_bind {A B : Type} (t : Task A) (f : A -> Task B) : forall n : nat,
  run w n (bind t f) =
  match outcome (run w n t) with
  | Resolved a => emit (trace (run w n t)) (run w (execs (run w n t)) (f a))
  | Rejected e => MkRun (trace (run w n t)) (execs (run w n t)) (Rejected e)
  end.
Proof.
  induction t as [a|e|line k IH|r k IH|key data k IH|var k IH|command env k IH];
    intros n; simpl.
  - rewrite emit_nil. reflexivity.
  - reflexivity.
  - by_rest IH (run w n k).
  - by_rest IH (run w n k).
  - by_rest IH (run w n (k (Hmac.hmac_sha256_hex key data))).
  - by_rest IH (run w n (k (process_env w !! var))).
  - destruct (child_process_exec w n command (child_env w env)) as [e|out code].
    + apply IH.
    + by_rest IH (run w (S n) (k (Exited code))).
Qed.

(** [p.catch(h)]: [h] runs when [p] rejects. *)
Lemma run_catch {A : Type} (t : Task A) (h : Js.Error -> Task A) :
  forall n : nat,
  run w n (catch t h) =
  match outcome (run w n t) with
  | Resolved a => run w n t
  | Rejected e => emit (trace (run w n t)) (run w (execs (run w n t)) (h e))
  end.
Proof.
  induction t as [a|e|line k IH|r k IH|key data k IH|var k IH|command env k IH];
    intros n; simpl.
  - reflexivity.
  - rewrite emit_nil. reflexivity.
  - by_rest IH (run w n k).
  - by_rest IH (run w n k).
  - by_rest IH (run w n (k (Hmac.hmac_sha256_hex key data))).
  - by_rest IH (run w n (k (process_env w !! var))).
  - destruct (child_process_exec w n command (child_env w env)) as [e|out code].
    + apply IH.
    + by_rest IH (run w (S n) (k (Exited code))).
Qed.

End RunLaws.

(** ** What traces show, piecewise *)

Lemma sent_app (xs ys : list Event) : sent (xs ++ ys) = sent xs ++ sent ys.
Proof.
  induction xs as [|[] xs IH]; simpl; try assumption; try reflexivity.
  rewrite IH. reflexivity.
Qed.

Lemma spawns_app (xs ys : list Event) :
  spawns (xs ++ ys) = spawns xs ++ spawns ys.
Proof.
  induction xs as [|[] xs IH]; simpl; try assumption; try reflexivity.
  rewrite IH. reflexivity.
Qed.

Lemma hmacs_app (xs ys : list Event) : hmacs (xs ++ ys) = hmacs xs ++ hmacs ys.
Proof.
  induction xs as [|[] xs IH]; simpl; try assumption; try reflexivity.
  rewrite IH. reflexivity.
Qed.

Lemma sent_data (out : list (Stream * string)) : sent (map data_line out) = [].
Proof. induction out as [|[[] chunk] out IH]; simpl; assumption || reflexivity. Qed.

Lemma spawns_data (out : list (Stream * string)) :
  spawns (map data_line out) = [].
Proof. induction out as [|[[] chunk] out IH]; simpl; assumption || reflexivity. Qed.

(** ** The step loop *)

Section Steps.

Import Controller.

Context (w : World).

Lemma run_steps_nil (n : nat) :
  run w n (executeSteps []) = MkRun [] n (Resolved tt).
Proof. reflexivity. Qed.

(** A step whose child exits with 0 is followed by the next step. *)
Lemma run_steps_cons_zero (step : IPipelineStep) (rest : list IPipelineStep)
    (n : nat) (out : list (Stream * string)) :
  child_process_exec w n (command step) (environmentVariables step)
    = Terminates out (Some 0%Z) ->
  run w n (executeSteps (step :: rest)) =
  emit (announce step :: EvSpawn (command step) (environmentVariables step)
          :: map data_line out)
       (run w (S n) (executeSteps rest)).
Proof.
  intros H. simpl. unfold child_env; simpl. rewrite H. simpl.
  rewrite emit_emit. reflexivity.
Qed.

(** A step whose child exits with another code ends the loop: the promise
    rejects with an [Error] that carries the code and nothing else. *)
Lemma run_steps_cons_nonzero (step : IPipelineStep) (rest : list IPipelineStep)
    (n : nat) (out : list (Stream * string)) (code : option Z) :
  child_process_exec w n (command step) (environmentVariables step)
    = Terminates out code ->
  Js.is_zero code = false ->
  run w n (executeSteps (step :: rest)) =
  MkRun (announce step :: EvSpawn (command step) (environmentVariables step)
           :: map data_line out)
        (S n)
        (Rejected (Js.new_Error
                     ("Command failed with code " +:+ Js.show_code code))).
Proof.
  intros H Hz. simpl. unfold child_env; simpl. rewrite H. simpl.
  rewrite Hz. unfold emit; simpl. rewrite List.app_nil_r. reflexivity.
Qed.

(** A throw of [exec] ends the loop with that error; no child started. *)
Lemma run_steps_cons_fault (step : IPipelineStep) (rest : list IPipelineStep)
    (n : nat) (e : Js.Error) :
  child_process_exec w n (command step) (environmentVariables step)
    = SpawnFault e ->
  run w n (executeSteps (step :: rest)) =
  MkRun [announce step] (S n) (Rejected e).
Proof.
  intros H. simpl. unfold child_env; simpl. rewrite H. reflexivity.
Qed.

Lemma all_exit_zero_cons (n : nat) (step : IPipelineStep)
    (steps : list IPipelineStep) :
  all_exit_zero w n (step :: steps) ->
  exits_with w n step (Some 0%Z) /\ all_exit_zero w (S n) steps.
Proof.
  intros H. split.
  - specialize (H 0%nat step eq_refl). rewrite Nat.add_0_r in H. exact H.
  - intros i s Hs. specialize (H (S i) s Hs).
    rewrite Nat.add_succ_r in H. exact H.
Qed.

(** Steps that all exit with 0 are all run, in order, and the loop goes
    on with what follows them. *)
Lemma run_steps_prefix (pre rest : list IPipelineStep) : forall n : nat,
  all_exit_zero w n pre ->
  exists tr : list Event,
    run w n (executeSteps (pre ++ rest)) =
      emit tr (run w (n + List.length pre) (executeSteps rest))
    /\ spawns tr = map spawn_of pre
    /\ sent tr = [].
Proof.
  induction pre as [|step pre IH]; intros n Hall.
  - exists []. simpl List.length. rewrite Nat.add_0_r, emit_nil. auto.
  - apply all_exit_zero_cons in Hall as [[out Hstep] Hall].
    destruct (IH (S n) Hall) as (tr & Hrun & Hsp & Hsent).
    eexists. split; [|split].
    + simpl app. rewrite (run_steps_cons_zero _ _ _ _ Hstep), Hrun, emit_emit.
      simpl List.length. rewrite Nat.add_succ_r. reflexivity.
    + simpl. rewrite spawns_app, spawns_data, Hsp. reflexivity.
    + simpl. rewrite sent_app, sent_data, Hsent. reflexivity.
Qed.

(** Whatever the children do, the loop itself answers nothing. *)
Lemma steps_send_nothing (steps : list IPipelineStep) : forall n : nat,
  sent (trace (run w n (executeSteps steps))) = [].
Proof.
  induction steps as [|step rest IH]; intros n; [reflexivity|].
  destruct (child_process_exec w n (command step) (environmentVariables step))
    as [e|out code] eqn:Hc.
  - rewrite (run_steps_cons_fault _ _ _ _ Hc). reflexivity.
  - destruct code as [[|p|p]|].
    + rewrite (run_steps_cons_zero _ _ _ _ Hc). simpl.
      rewrite sent_app, sent_data, IH. reflexivity.
    + rewrite (run_steps_cons_nonzero _ _ _ _ _ Hc eq_refl). simpl.
      apply sent_data.
    + rewrite (run_steps_cons_nonzero _ _ _ _ _ Hc eq_refl). simpl.
      apply sent_data.
    + rewrite (run_steps_cons_nonzero _ _ _ _ _ Hc eq_refl). simpl.
      apply sent_data.
Qed.

(** The children started are those of the first steps, each with the
    command and the environment of its own step. *)
Lemma steps_spawn_in_order (steps : list IPipelineStep) : forall n : nat,
  exists k : nat,
    spawns (trace (run w n (executeSteps steps)))
    = map spawn_of (firstn k steps).
Proof.
  induction steps as [|step rest IH]; intros n; [exists 0%nat; reflexivity|].
  destruct (child_process_exec w n (command step) (environmentVariables step))
    as [e|out code] eqn:Hc.
  - exists 0%nat. rewrite (run_steps_cons_fault _ _ _ _ Hc). reflexivity.
  - destruct (Js.is_zero code) eqn:Hz.
    + destruct code as [[|p|p]|]; try discriminate Hz.
      destruct (IH (S n)) as [k Hk]. exists (S k).
      rewrite (run_steps_cons_zero _ _ _ _ Hc). simpl.
      rewrite spawns_app, spawns_data, Hk. reflexivity.
    + exists 1%nat. rewrite (run_steps_cons_nonzero _ _ _ _ _ Hc Hz). simpl.
      rewrite spawns_data. destruct rest; reflexivity.
Qed.

(** Lines 56-60: one answer, 200 when the loop resolved and 500 with the
    error's text when it rejected. *)
Lemma run_respond (this : SecureDevOpsPipelineController) (n : nat) :
  run w n (respond this) =
  MkRun (trace (run w n (executePipelineSteps this)) ++
           [EvSend match outcome (run w n (executePipelineSteps this)) with
                   | Resolved _ => executed
                   | Rejected e => failed e
                   end])
        (execs (run w n (executePipelineSteps this)))
        (Resolved tt).
Proof.
  unfold respond. rewrite run_catch, run_bind.
  destruct (run w n (executePipelineSteps this)) as [tr m [[]|e]]; reflexivity.
Qed.

Lemma sent_respond (this : SecureDevOpsPipelineController) (n : nat) :
  sent (trace (run w n (respond this))) =
  [match outcome (run w n (executePipelineSteps this)) with
   | Resolved _ => executed
   | Rejected e => failed e
   end].
Proof.
  rewrite run_respond. simpl. rewrite sent_app.
  unfold executePipelineSteps. rewrite steps_send_nothing. reflexivity.
Qed.

(** The handler on a non-empty string: the digest is computed, the
    variable is read, and the comparison decides. *)
Lemma run_postPipeline_string (this : SecureDevOpsPipelineController)
    (t : string) (n : nat) :
  t <> "" ->
  run w n (postPipeline this (Some (Js.JString t))) =
  if Js.strict_neq (Hmac.hmac_sha256_hex (pipelineName (config this)) t)
                   (process_env w !! "TRIGGER_TOKEN")
  then MkRun [EvHmac (pipelineName (config this)) t;
              EvGetEnv "TRIGGER_TOKEN"; EvSend unauthorized] n (Resolved tt)
  else emit [EvHmac (pipelineName (config this)) t; EvGetEnv "TRIGGER_TOKEN"]
            (run w n (respond this)).
Proof.
  intros Ht. apply String.eqb_neq in Ht.
  unfold postPipeline. simpl. rewrite Ht. simpl.
  destruct (Js.strict_neq _ _); [reflexivity|].
  rewrite emit_emit. reflexivity.
Qed.

(** A request let through is never answered 401, a request stopped at the
    comparison always is. *)
Lemma rejected_postPipeline_string (this : SecureDevOpsPipelineController)
    (t : string) (n : nat) :
  t <> "" ->
  rejected (trace (run w n (postPipeline this (Some (Js.JString t))))) =
  Js.strict_neq (Hmac.hmac_sha256_hex (pipelineName (config this)) t)
                (process_env w !! "TRIGGER_TOKEN").
Proof.
  intros Ht. rewrite (run_postPipeline_string _ _ _ Ht).
  destruct (Js.strict_neq _ _); [reflexivity|].
  unfold rejected. simpl. rewrite sent_respond.
  destruct (outcome _); reflexivity.
Qed.

End Steps.

(** ** Authentication of the trigger *)

Section Authentication.

Import Controller.

(** A trigger that is [undefined], [null], [false], [0] or the empty
    string is answered 401 at once: no digest is computed, the environment
    is not read, no step runs. *)
Lemma falsy_trigger_unauthorized (w : World)
    (this : SecureDevOpsPipelineController) (trigger : option Js.Json)
    (n : nat) :
  Js.truthy trigger = false ->
  run w n (postPipeline this trigger) = MkRun [EvSend unauthorized] n (Resolved tt).
Proof.
  intros H. unfold postPipeline. rewrite H. reflexivity.
Qed.

(** C8: a payload whose trigger is missing or empty is answered 401
    "Unauthorized", and the digest is never computed: the answer is the
    only effect of the handler. *)
Theorem C8_missing_or_empty_trigger_is_unauthorized (w : World)
    (this : SecureDevOpsPipelineController) (trigger : option Js.Json)
    (n : nat) :
  trigger = None \/ trigger = Some (Js.JString "") ->
  run w n (postPipeline this trigger)
    = MkRun [EvSend (MkResponse 401 "Unauthorized")] n (Resolved tt)
  /\ hmacs (trace (run w n (postPipeline this trigger))) = []
  /\ spawns (trace (run w n (postPipeline this trigger))) = [].
Proof.
  intros H.
  assert (Hf : Js.truthy trigger = false) by (destruct H; subst; reflexivity).
  rewrite (falsy_trigger_unauthorized w this trigger n Hf).
  repeat split.
Qed.

Lemma C8_witness :
  run Sample.all_pass 0 (postPipeline Sample.controller None)
    = MkRun [EvSend (MkResponse 401 "Unauthorized")] 0 (Resolved tt)
  /\ hmacs (trace (run Sample.all_pass 0 (postPipeline Sample.controller None))) = []
  /\ spawns (trace (run Sample.all_pass 0 (postPipeline Sample.controller None))) = [].
Proof.
  apply (C8_missing_or_empty_trigger_is_unauthorized
           Sample.all_pass Sample.controller None 0).
  left. reflexivity.
Defined.

(** C10: a request with a non-empty trigger is let through exactly when
    the hex digest of the trigger under the pipeline name is the value of
    TRIGGER_TOKEN.  Let through, the handler goes on to run the steps;
    otherwise, and always when the variable is unset, the answer is 401
    "Unauthorized" and nothing else happens. *)
Theorem C10_authorized_iff_digest_is_TRIGGER_TOKEN (w : World)
    (this : SecureDevOpsPipelineController) (t : string) (n : nat) :
  t <> "" ->
  let digest := Hmac.hmac_sha256_hex (pipelineName (config this)) t in
  let r := run w n (postPipeline this (Some (Js.JString t))) in
  let stopped :=
    MkRun [EvHmac (pipelineName (config this)) t; EvGetEnv "TRIGGER_TOKEN";
           EvSend (MkResponse 401 "Unauthorized")] n (Resolved tt) in
  (rejected (trace r) = false <-> process_env w !! "TRIGGER_TOKEN" = Some digest)
  /\ (process_env w !! "TRIGGER_TOKEN" = Some digest ->
      r = emit [EvHmac (pipelineName (config this)) t; EvGetEnv "TRIGGER_TOKEN"]
               (run w n (respond this)))
  /\ (process_env w !! "TRIGGER_TOKEN" <> Some digest -> r = stopped)
  /\ (process_env w !! "TRIGGER_TOKEN" = None -> r = stopped).
Proof.
  intros Ht digest r stopped. subst r.
  rewrite (rejected_postPipeline_string w this t n Ht).
  rewrite (run_postPipeline_string w this t n Ht).
  fold digest. split; [apply strict_neq_false|].
  destruct (Js.strict_neq digest (process_env w !! "TRIGGER_TOKEN")) eqn:E.
  - split; [|split]; [|reflexivity|reflexivity].
    intros H. apply strict_neq_false in H. congruence.
  - apply strict_neq_false in E. split; [reflexivity|split].
    + intros H. contradiction.
    + intros H. congruence.
Qed.

Lemma C10_witness :
  rejected (trace (run Sample.all_pass 0
                       (postPipeline Sample.controller Sample.go))) = false
  <-> process_env Sample.all_pass !! "TRIGGER_TOKEN"
      = Some (Hmac.hmac_sha256_hex "release" "go").
Proof.
  apply (C10_authorized_iff_digest_is_TRIGGER_TOKEN
           Sample.all_pass Sample.controller "go" 0).
  discriminate.
Defined.

(** C1, counterexample: the pipeline is named "release" and TRIGGER_TOKEN
    holds the digest of the trigger "go" under the secret "s3cret"; the
    request is answered 401.  So is the empty trigger when TRIGGER_TOKEN
    holds its digest under the pipeline name. *)
Lemma C1_digest_under_a_secret_is_refused :
  process_env Sample.keyed_by_secret !! "TRIGGER_TOKEN"
    = Some (Hmac.hmac_sha256_hex "s3cret" "go")
  /\ sent (trace (run Sample.keyed_by_secret 0
                      (postPipeline Sample.controller Sample.go)))
     = [MkResponse 401 "Unauthorized"]
  /\ rejected (trace (run Sample.keyed_by_secret 0
                          (postPipeline Sample.controller Sample.go))) = true
  /\ process_env Sample.empty_trigger !! "TRIGGER_TOKEN"
     = Some (Hmac.hmac_sha256_hex "release" "")
  /\ sent (trace (run Sample.empty_trigger 0
                      (postPipeline Sample.controller (Some (Js.JString "")))))
     = [MkResponse 401 "Unauthorized"].
Proof. vm_compute. repeat split. Qed.

(** C1, as the code has it: with a non-empty trigger [t] and the token
    [p] presented in TRIGGER_TOKEN, the check passes exactly when [p] is
    the hex digest of [t] under the pipeline name, the only key there is.
    The digest itself passes, and a token that differs from it in one bit
    does not. *)
Theorem C1_check_passes_iff_token_is_digest_under_name (w : World)
    (this : SecureDevOpsPipelineController) (t p : string) (n : nat) :
  t <> "" ->
  process_env w !! "TRIGGER_TOKEN" = Some p ->
  let digest := Hmac.hmac_sha256_hex (pipelineName (config this)) t in
  let r := run w n (postPipeline this (Some (Js.JString t))) in
  (rejected (trace r) = false <-> p = digest)
  /\ (p = digest -> rejected (trace r) = false)
  /\ (forall i j : nat,
        (i < 64)%nat -> (j < 8)%nat -> p = flip_bit i j digest ->
        rejected (trace r) = true).
Proof.
  intros Ht Hp digest r. subst r.
  rewrite (rejected_postPipeline_string w this t n Ht), Hp. fold digest.
  assert (Hiff : Js.strict_neq digest (Some p) = false <-> p = digest).
  { rewrite strict_neq_false. split; congruence. }
  split; [exact Hiff|split; [apply Hiff|]].
  intros i j Hi Hj Hflip.
  assert (Hne : digest <> p).
  { rewrite Hflip. intros E. apply (flip_bit_neq digest i j); [|assumption|congruence].
    unfold digest. rewrite hmac_sha256_hex_length. assumption. }
  unfold Js.strict_neq. apply negb_true_iff, String.eqb_neq. exact Hne.
Qed.

Lemma C1_witness :
  rejected (trace (run Sample.all_pass 0
                       (postPipeline Sample.controller Sample.go))) = false
  <-> Sample.token = Hmac.hmac_sha256_hex "release" "go".
Proof.
  apply (C1_check_passes_iff_token_is_digest_under_name
           Sample.all_pass Sample.controller "go" Sample.token 0).
  - discriminate.
  - vm_compute. reflexivity.
Defined.

End Authentication.

(** ** Runs of the pipeline *)

Lemma prefix_refl (s : string) : String.prefix s s = true.
Proof.
  induction s as [|c s IH]; simpl; [reflexivity|].
  destruct (ascii_dec c c) as [_|Hc]; [exact IH|contradiction].
Qed.

Lemma contains_refl (s : string) : contains s s = true.
Proof.
  destruct s as [|c s]; [reflexivity|].
  change (String.prefix (String c s) (String c s)
            || contains (String c s) s = true).
  rewrite prefix_refl. reflexivity.
Qed.

Lemma contains_append (pre s : string) : contains s (pre +:+ s) = true.
Proof.
  induction pre as [|c pre IH].
  - apply contains_refl.
  - change (String.prefix s (String c (pre +:+ s))
              || contains s (pre +:+ s) = true).
    rewrite IH. apply orb_true_r.
Qed.

Section Pipeline.

Import Controller.

Context (w : World).

(** The loop when the first steps exit with 0 and the next one does not. *)
Lemma run_steps_until_nonzero (pre post : list IPipelineStep)
    (step : IPipelineStep) (code : option Z) (n : nat) :
  all_exit_zero w n pre ->
  exits_with w (n + List.length pre) step code ->
  Js.is_zero code = false ->
  spawns (trace (run w n (executeSteps (pre ++ step :: post))))
    = map spawn_of (pre ++ [step])
  /\ execs (run w n (executeSteps (pre ++ step :: post)))
     = S (n + List.length pre)
  /\ outcome (run w n (executeSteps (pre ++ step :: post)))
     = Rejected (Js.new_Error
                   ("Command failed with code " +:+ Js.show_code code)).
Proof.
  intros Hpre [out Hstep] Hz.
  destruct (run_steps_prefix w pre (step :: post) n Hpre)
    as (tr & Hrun & Hsp & _).
  rewrite Hrun, (run_steps_cons_nonzero w _ _ _ _ _ Hstep Hz). simpl.
  rewrite spawns_app, Hsp. simpl. rewrite spawns_data, List.map_app.
  repeat split.
Qed.

(** The loop when every step exits with 0. *)
Lemma run_steps_all_zero (steps : list IPipelineStep) (n : nat) :
  all_exit_zero w n steps ->
  spawns (trace (run w n (executeSteps steps))) = map spawn_of steps
  /\ execs (run w n (executeSteps steps)) = (n + List.length steps)%nat
  /\ outcome (run w n (executeSteps steps)) = Resolved tt.
Proof.
  intros Hall.
  destruct (run_steps_prefix w steps [] n Hall) as (tr & Hrun & Hsp & _).
  rewrite List.app_nil_r in Hrun. rewrite Hrun, run_steps_nil. simpl.
  rewrite List.app_nil_r, Hsp. repeat split.
Qed.

(** A request let through is answered by [respond] alone. *)
Lemma sent_postPipeline_valid (this : SecureDevOpsPipelineController)
    (t : string) (n : nat) :
  valid_trigger w this t ->
  sent (trace (run w n (postPipeline this (Some (Js.JString t)))))
  = [match outcome (run w n (executePipelineSteps this)) with
     | Resolved _ => executed
     | Rejected e => failed e
     end].
Proof.
  intros [Ht Htok]. rewrite (run_postPipeline_string w this t n Ht).
  apply strict_neq_false in Htok. rewrite Htok. simpl.
  apply sent_respond.
Qed.

End Pipeline.

(** ** Shapes of the controller's tasks *)

Section Shapes.

Import Controller.

Lemma answers_weaken {A : Type} (P Q : Response -> Prop) (t : Task A) :
  (forall r, P r -> Q r) -> answers P t -> answers Q t.
Proof.
  intros HPQ. induction t; simpl; intuition auto.
Qed.

Lemma answers_bind {A B : Type} (P : Response -> Prop) (t : Task A)
    (f : A -> Task B) :
  answers P t -> (forall a, answers P (f a)) -> answers P (bind t f).
Proof.
  intros Ht Hf. induction t; simpl in *; intuition auto.
Qed.

Lemma answers_catch {A : Type} (P : Response -> Prop) (t : Task A)
    (h : Js.Error -> Task A) :
  answers P t -> (forall e, answers P (h e)) -> answers P (catch t h).
Proof.
  intros Ht Hh. induction t; simpl in *; intuition auto.
Qed.

(** The step loop answers nothing itself. *)
Lemma executeSteps_answers_nothing (steps : list IPipelineStep) :
  answers nothing (executeSteps steps).
Proof.
  induction steps as [|step rest IH]; simpl; [exact I|].
  intros [e|code]; simpl; [exact I|].
  destruct (Js.is_zero code); simpl; [exact IH|exact I].
Qed.

(** After the check, the only answers are 200 and 500. *)
Lemma respond_answers (this : SecureDevOpsPipelineController) :
  answers (fun r => status r = 200%Z \/ status r = 500%Z) (respond this).
Proof.
  unfold respond. apply answers_catch; [apply answers_bind|].
  - apply (answers_weaken nothing); [intros r []|].
    apply executeSteps_answers_nothing.
  - intros _. simpl. auto.
  - intros e. simpl. auto.
Qed.

(** The handler answers 200, 401 or 500, and nothing else. *)
Lemma postPipeline_answers (this : SecureDevOpsPipelineController)
    (trigger : option Js.Json) :
  answers known_status (postPipeline this trigger).
Proof.
  unfold postPipeline, known_status.
  destruct (Js.truthy trigger); simpl; [|auto].
  destruct trigger as [[| | |s| |]|]; simpl; try exact I.
  intros d v. destruct (Js.strict_neq d v); simpl; [auto|].
  apply (answers_weaken (fun r => status r = 200%Z \/ status r = 500%Z));
    [intuition auto|apply respond_answers].
Qed.

(** A task that answers nothing, followed by one answer on success and
    one on failure, is done once it has answered. *)
Lemma reply_answers_last (t : Task unit) (ok : Response)
    (ko : Js.Error -> Response) :
  answers nothing t ->
  answers_last (catch (bind t (fun _ => Send ok (Ret tt)))
                      (fun e => Send (ko e) (Ret tt))).
Proof.
  induction t; simpl; intros Ht; try reflexivity; auto.
  destruct Ht as [[] _].
Qed.

Lemma respond_answers_last (this : SecureDevOpsPipelineController) :
  answers_last (respond this).
Proof.
  unfold respond. apply reply_answers_last, executeSteps_answers_nothing.
Qed.

Lemma postPipeline_answers_last (this : SecureDevOpsPipelineController)
    (trigger : option Js.Json) :
  answers_last (postPipeline this trigger).
Proof.
  unfold postPipeline.
  destruct (Js.truthy trigger); simpl; [|reflexivity].
  destruct trigger as [[| | |s| |]|]; simpl; try exact I.
  intros d v. destruct (Js.strict_neq d v); simpl; [reflexivity|].
  apply respond_answers_last.
Qed.

End Shapes.

(** ** The event loop *)

Section LoopLaws.

Import Controller EventLoop.

Context (w : World) (this : SecureDevOpsPipelineController).

Lemma events_of_record (rid : nat) (ev : Event) (st : Loop) :
  events_of rid (record_event rid ev st) = events_of rid st ++ [ev].
Proof.
  unfold events_of, record_event. simpl.
  rewrite List.filter_app, List.map_app. simpl.
  rewrite Nat.eqb_refl. reflexivity.
Qed.

Lemma finished_record_quiet (rid : nat) (ev : Event) (st : Loop) :
  sent [ev] = [] ->
  finished rid (record_event rid ev st) = finished rid st.
Proof.
  intros Hev. unfold finished. rewrite events_of_record, sent_app, Hev.
  rewrite List.app_nil_r. reflexivity.
Qed.

(** What the synchronous part of a task changes: it appends to the
    journal, to the escaped errors and to the parked continuations, all
    under the number of its own request, and leaves the rest alone. *)
Lemma drive_frame (t : Task unit) : forall (rid : nat) (st : Loop),
  exists (evs : list Event) (errs : list Js.Error)
         (ks : list (Spawned -> Task unit)),
    next_request (drive w rid t st) = next_request st
    /\ journal (drive w rid t st) = journal st ++ map (pair rid) evs
    /\ escaped (drive w rid t st) = escaped st ++ map (pair rid) errs
    /\ inflight (drive w rid t st) = inflight st ++ map (pair rid) ks.
Proof.
  induction t as [a|e|line k IH|r k IH|key data k IH|var k IH|command env k IH];
    intros rid st; simpl.
  - exists [], [], []. simpl. rewrite !List.app_nil_r. auto.
  - exists [], [e], []. simpl. rewrite !List.app_nil_r. auto.
  - destruct (IH rid (record_event rid (EvConsole Stdout line) st))
      as (evs & errs & ks & Hn & Hj & He & Hi).
    exists (EvConsole Stdout line :: evs), errs, ks.
    rewrite Hn, Hj, He, Hi. simpl. rewrite <- List.app_assoc. auto.
  - destruct (IH rid (record_event rid (EvSend r) st))
      as (evs & errs & ks & Hn & Hj & He & Hi).
    exists (EvSend r :: evs), errs, ks.
    rewrite Hn, Hj, He, Hi. simpl. rewrite <- List.app_assoc. auto.
  - destruct (IH (Hmac.hmac_sha256_hex key data) rid
                 (record_event rid (EvHmac key data) st))
      as (evs & errs & ks & Hn & Hj & He & Hi).
    exists (EvHmac key data :: evs), errs, ks.
    rewrite Hn, Hj, He, Hi. simpl. rewrite <- List.app_assoc. auto.
  - destruct (IH (process_env w !! var) rid
                 (record_event rid (EvGetEnv var) st))
      as (evs & errs & ks & Hn & Hj & He & Hi).
    exists (EvGetEnv var :: evs), errs, ks.
    rewrite Hn, Hj, He, Hi. simpl. rewrite <- List.app_assoc. auto.
  - destruct (child_process_exec w (exec_calls st) command (child_env w env))
      as [e|out code].
    + destruct (IH (Faulted e) rid (count_exec st))
        as (evs & errs & ks & Hn & Hj & He & Hi).
      exists evs, errs, ks. rewrite Hn, Hj, He, Hi. auto.
    + exists [EvSpawn command (child_env w env)], [], [k]. simpl.
      rewrite List.app_nil_r. auto.
Qed.

(** The synchronous part of a task that answers last either parks
    nothing, or parks one continuation of the same kind without having
    answered or thrown. *)
Lemma drive_answers_last (t : Task unit) : forall (rid : nat) (st : Loop),
  answers_last t ->
  inflight (drive w rid t st) = inflight st
  \/ exists k : Spawned -> Task unit,
       inflight (drive w rid t st) = inflight st ++ [(rid, k)]
       /\ (forall r : Spawned, answers_last (k r))
       /\ finished rid (drive w rid t st) = finished rid st.
Proof.
  induction t as [a|e|line k IH|r k IH|key data k IH|var k IH|command env k IH];
    intros rid st Ht; simpl in Ht |- *.
  - left. reflexivity.
  - left. reflexivity.
  - destruct (IH rid (record_event rid (EvConsole Stdout line) st) Ht)
      as [H|(k' & Hi & Hk & Hf)]; [left; exact H|right].
    exists k'. rewrite Hi, Hf, finished_record_quiet by reflexivity. auto.
  - subst k. left. reflexivity.
  - destruct (IH (Hmac.hmac_sha256_hex key data) rid
                 (record_event rid (EvHmac key data) st) (Ht _))
      as [H|(k' & Hi & Hk & Hf)]; [left; exact H|right].
    exists k'. rewrite Hi, Hf, finished_record_quiet by reflexivity. auto.
  - destruct (IH (process_env w !! var) rid
                 (record_event rid (EvGetEnv var) st) (Ht _))
      as [H|(k' & Hi & Hk & Hf)]; [left; exact H|right].
    exists k'. rewrite Hi, Hf, finished_record_quiet by reflexivity. auto.
  - destruct (child_process_exec w (exec_calls st) command (child_env w env))
      as [e|out code].
    + destruct (IH (Faulted e) rid (count_exec st) (Ht _))
        as [H|(k' & Hi & Hk & Hf)]; [left; exact H|right].
      exists k'. rewrite Hi, Hf. auto.
    + right. exists k. split; [reflexivity|split; [exact Ht|]].
      unfold park. simpl.
      apply (finished_record_quiet rid (EvSpawn command (child_env w env))
                                   (count_exec st)).
      reflexivity.
Qed.

(** Every answer the synchronous part of a task sends, and every answer
    the continuation it parks can send, is one the task can send. *)
Lemma drive_answers_only (P : Response -> Prop) (t : Task unit) :
  forall (rid : nat) (st : Loop),
  answers P t -> answers_only P st -> answers_only P (drive w rid t st).
Proof.
  unfold answers_only.
  induction t as [a|e|line k IH|r k IH|key data k IH|var k IH|command env k IH];
    intros rid st Ht [Hj Hi]; simpl in Ht |- *.
  - auto.
  - auto.
  - apply IH; [exact Ht|]. simpl.
    rewrite List.map_app, sent_app, List.app_nil_r. auto.
  - destruct Ht as [Hr Ht]. apply IH; [exact Ht|]. simpl.
    rewrite List.map_app, sent_app. split; [|exact Hi].
    apply Forall_app. split; [exact Hj|]. simpl. auto.
  - apply IH; [apply Ht|]. simpl.
    rewrite List.map_app, sent_app, List.app_nil_r. auto.
  - apply IH; [apply Ht|]. simpl.
    rewrite List.map_app, sent_app, List.app_nil_r. auto.
  - destruct (child_process_exec w (exec_calls st) command (child_env w env))
      as [e|out code].
    + apply IH; [apply Ht|]. simpl. auto.
    + simpl. rewrite List.map_app, sent_app, List.app_nil_r.
      split; [exact Hj|]. apply Forall_app. split; [exact Hi|].
      constructor; [exact Ht|constructor].
Qed.

Lemma take_Forall {K : Type} (Q : nat * K -> Prop) (rid : nat)
    (l : list (nat * K)) : forall (k : K) (rest : list (nat * K)),
  take rid l = Some (k, rest) -> Forall Q l -> Q (rid, k) /\ Forall Q rest.
Proof.
  induction l as [|[r k0] l IH]; intros k rest Htake Hall; simpl in Htake.
  - discriminate.
  - inversion Hall as [|x xs Hx Hxs]; subst.
    destruct (Nat.eqb r rid) eqn:E.
    + apply Nat.eqb_eq in E. injection Htake as <- <-. subst r. auto.
    + destruct (take rid l) as [[k' rest']|]; [|discriminate].
      injection Htake as <- <-.
      destruct (IH k' rest' eq_refl Hxs) as [Hq Hrest]. auto.
Qed.

End LoopLaws.

(** ** Runs in the event loop *)

Section LoopRuns.

Import Controller EventLoop.

Context (w : World) (this : SecureDevOpsPipelineController).

Lemma Forall_pair {B : Type} (rid bound : nat) (xs : list B) :
  (rid < bound)%nat ->
  Forall (fun e : nat * B => (fst e < bound)%nat) (map (pair rid) xs).
Proof.
  intros H. induction xs; simpl; constructor; auto.
Qed.

Lemma drive_well_numbered (t : Task unit) (rid : nat) (st : Loop) :
  (rid < next_request st)%nat ->
  well_numbered st -> well_numbered (drive w rid t st).
Proof.
  intros Hrid (Hj & He & Hi). unfold well_numbered.
  destruct (drive_frame w t rid st) as (evs & errs & ks & -> & -> & -> & ->).
  repeat split; apply Forall_app; split; auto using Forall_pair.
Qed.

Lemma accept_well_numbered (st : Loop) :
  well_numbered st -> well_numbered (accept_request st).
Proof.
  intros (Hj & He & Hi). unfold well_numbered. simpl.
  repeat split; (eapply List.Forall_impl; [|eassumption]); simpl; intros; lia.
Qed.

Lemma deliver_well_numbered (st : Loop) (i : Input) :
  well_numbered st -> well_numbered (deliver w this st i).
Proof.
  intros Hwf. destruct i as [trigger|rid chunk|rid code]; simpl.
  - apply drive_well_numbered; [simpl; lia|].
    apply accept_well_numbered, Hwf.
  - destruct (take rid (inflight st)) as [[k rest]|] eqn:Htake; [|exact Hwf].
    destruct Hwf as (Hj & He & Hi).
    destruct (take_Forall _ rid _ k rest Htake Hi) as [Hrid _].
    unfold well_numbered. simpl. repeat split; auto.
    apply Forall_app. split; [exact Hj|]. constructor; [exact Hrid|constructor].
  - destruct (take rid (inflight st)) as [[k rest]|] eqn:Htake; [|exact Hwf].
    destruct Hwf as (Hj & He & Hi).
    destruct (take_Forall _ rid _ k rest Htake Hi) as [Hrid Hrest].
    apply drive_well_numbered; [exact Hrid|].
    unfold well_numbered. simpl. auto.
Qed.

Lemma deliver_all_well_numbered (inputs : list Input) : forall st : Loop,
  well_numbered st -> well_numbered (deliver_all w this st inputs).
Proof.
  induction inputs as [|i inputs IH]; intros st Hwf; simpl; [exact Hwf|].
  apply IH, deliver_well_numbered, Hwf.
Qed.

(** Every state the server can reach is well numbered. *)
Lemma reachable_well_numbered (history : list Input) :
  well_numbered (deliver_all w this initial history).
Proof.
  apply deliver_all_well_numbered. repeat split; constructor.
Qed.

(** A request that has just been given its number has no answer yet. *)
Lemma finished_fresh (st : Loop) :
  well_numbered st -> finished (next_request st) (accept_request st) = false.
Proof.
  intros (Hj & He & _). unfold finished, events_of. simpl.
  assert (Hnone : List.filter (fun e : nat * Event => Nat.eqb (fst e) (next_request st))
                              (journal st) = []).
  { induction Hj as [|e l He' _ IH]; simpl; [reflexivity|].
    replace (Nat.eqb (fst e) (next_request st)) with false; [exact IH|].
    symmetry. apply Nat.eqb_neq. lia. }
  rewrite Hnone. simpl.
  induction He as [|e l He' _ IH]; simpl; [reflexivity|].
  rewrite IH. replace (Nat.eqb (fst e) (next_request st)) with false;
    [reflexivity|]. symmetry. apply Nat.eqb_neq. lia.
Qed.

(** A request that arrives when nothing is in flight is the only one in
    flight afterwards, if any. *)
Lemma incoming_single_run (st : Loop) (trigger : option Js.Json) :
  well_numbered st -> inflight st = [] ->
  single_run (next_request st) (deliver w this st (Incoming trigger)).
Proof.
  intros Hwf Hidle. simpl.
  destruct (drive_answers_last w (postPipeline this trigger) (next_request st)
              (accept_request st) (postPipeline_answers_last this trigger))
    as [H|(k & Hi & Hk & Hf)].
  - left. rewrite H. exact Hidle.
  - right. exists k. simpl in Hi. rewrite Hidle in Hi.
    rewrite Hi, Hf. auto using finished_fresh.
Qed.

(** Output and exits of children start no run. *)
Lemma child_single_run (rid : nat) (st : Loop) (i : Input) :
  from_child i = true ->
  single_run rid st -> single_run rid (deliver w this st i).
Proof.
  intros Hi [Hnone|(k & Hone & Hf & Hk)].
  - destruct i as [trigger|r chunk|r code]; [discriminate| |];
      simpl; rewrite Hnone; simpl; left; exact Hnone.
  - destruct i as [trigger|r chunk|r code]; [discriminate| |];
      simpl; rewrite Hone; simpl;
      destruct (Nat.eqb rid r) eqn:E;
      try (right; exists k; auto; fail);
      apply Nat.eqb_eq in E; subst r.
    + right. exists k. simpl. split; [exact Hone|split; [|exact Hk]].
      rewrite finished_record_quiet; [exact Hf|].
      destruct chunk as [[] c]; reflexivity.
    + destruct (drive_answers_last w (k (Exited code)) rid (unpark [] st)
                  (Hk (Exited code))) as [H|(k' & Hi' & Hk' & Hf')].
      * left. exact H.
      * right. exists k'. rewrite Hi', Hf'. auto.
Qed.

Lemma children_single_run (rid : nat) (inputs : list Input) : forall st : Loop,
  forallb from_child inputs = true ->
  single_run rid st -> single_run rid (deliver_all w this st inputs).
Proof.
  induction inputs as [|i inputs IH]; intros st Hall Hst; simpl; [exact Hst|].
  simpl in Hall. apply andb_true_iff in Hall as [Hi Hall].
  apply IH; [exact Hall|]. apply child_single_run; assumption.
Qed.

(** A valid trigger passes the check whatever the state of the loop: the
    handler goes on to lines 56-60. *)
Lemma deliver_valid (st : Loop) (t : string) :
  valid_trigger w this t ->
  deliver w this st (Incoming (Some (Js.JString t))) =
  drive w (next_request st) (respond this)
    (record_event (next_request st) (EvGetEnv "TRIGGER_TOKEN")
       (record_event (next_request st)
          (EvHmac (pipelineName (config this)) t) (accept_request st))).
Proof.
  intros [Ht Htok]. apply String.eqb_neq in Ht.
  apply strict_neq_false in Htok.
  unfold deliver, postPipeline. simpl. rewrite Ht. simpl.
  rewrite Htok. reflexivity.
Qed.

Lemma deliver_answers_only (P : Response -> Prop) (st : Loop) (i : Input) :
  (forall trigger, answers P (postPipeline this trigger)) ->
  answers_only P st -> answers_only P (deliver w this st i).
Proof.
  intros HP Hst. destruct i as [trigger|rid chunk|rid code]; simpl.
  - apply drive_answers_only; [apply HP|exact Hst].
  - destruct (take rid (inflight st)) as [[k rest]|]; [|exact Hst].
    destruct Hst as [Hj Hi]. split; [|exact Hi]. simpl.
    rewrite List.map_app, sent_app.
    replace (sent (map snd [(rid, data_line chunk)])) with (@nil Response);
      [rewrite List.app_nil_r; exact Hj|].
    destruct chunk as [[] c]; reflexivity.
  - destruct (take rid (inflight st)) as [[k rest]|] eqn:Htake; [|exact Hst].
    destruct Hst as [Hj Hi].
    destruct (take_Forall _ rid _ k rest Htake Hi) as [Hk Hrest].
    apply drive_answers_only; [apply Hk|]. split; assumption.
Qed.

(** Whatever arrives, in whatever order, the server answers 200, 401 or
    500 and nothing else. *)
Lemma only_known_statuses (inputs : list Input) :
  Forall known_status
         (sent (map snd (journal (deliver_all w this initial inputs)))).
Proof.
  assert (H : forall st, answers_only known_status st ->
                         answers_only known_status (deliver_all w this st inputs)).
  { induction inputs as [|i inputs IH]; intros st Hst; simpl; [exact Hst|].
    apply IH, deliver_answers_only; [apply postPipeline_answers|exact Hst]. }
  apply H. split; constructor.
Qed.

End LoopRuns.

(** ** The event loop follows the oracle *)

Section Adequacy.

Import Controller EventLoop.

Context (w : World) (this : SecureDevOpsPipelineController).

Lemma take_parked {K : Type} (rid : nat) (k : K) (l : list (nat * K)) :
  (forall e, In e l -> fst e <> rid) ->
  take rid (l ++ [(rid, k)]) = Some (k, l).
Proof.
  induction l as [|[r k0] l IH]; intros Hl; simpl.
  - rewrite Nat.eqb_refl. reflexivity.
  - assert (Hr : Nat.eqb r rid = false).
    { apply Nat.eqb_neq. apply (Hl (r, k0)). left. reflexivity. }
    rewrite Hr, IH; [reflexivity|].
    intros e He. apply Hl. right. exact He.
Qed.

Lemma deliver_all_app (st : Loop) (xs ys : list Input) :
  deliver_all w this st (xs ++ ys)
  = deliver_all w this (deliver_all w this st xs) ys.
Proof. unfold deliver_all. apply List.fold_left_app. Qed.

(** The chunks of a waiting child go to the console, in order, and
    change nothing else. *)
Lemma deliver_chunks (rid : nat) (k : Spawned -> Task unit)
    (l : list (nat * (Spawned -> Task unit))) (out : list (Stream * string)) :
  forall st : Loop,
  inflight st = l ++ [(rid, k)] ->
  (forall e, In e l -> fst e <> rid) ->
  deliver_all w this st (map (ChildData rid) out)
  = MkLoop (next_request st) (exec_calls st) (inflight st)
           (journal st ++ map (pair rid) (map data_line out)) (escaped st).
Proof.
  induction out as [|chunk out IH]; intros st Hst Hl; simpl.
  - rewrite List.app_nil_r. destruct st; reflexivity.
  - rewrite Hst, (take_parked rid k l Hl).
    rewrite IH; [|simpl; exact Hst|exact Hl]. simpl.
    rewrite <- List.app_assoc, Hst. reflexivity.
Qed.

(** One run alone in the loop, its children behaving as the oracle says,
    leaves in the journal exactly the trace of [run], makes as many calls
    of [exec], lets the same error escape, and leaves nothing parked. *)
Lemma loop_follows_run (t : Task unit) : forall (rid : nat) (st : Loop),
  not_parked rid st ->
  deliver_all w this (drive w rid t st) (script w rid (exec_calls st) t)
  = MkLoop (next_request st)
           (execs (run w (exec_calls st) t))
           (inflight st)
           (journal st ++ map (pair rid) (trace (run w (exec_calls st) t)))
           (escaped st ++ escape_of rid (outcome (run w (exec_calls st) t))).
Proof.
  induction t as [a|e|line k IH|r k IH|key data k IH|var k IH|command env k IH];
    intros rid st Hfree; simpl.
  - rewrite !List.app_nil_r. destruct st; reflexivity.
  - rewrite List.app_nil_r. reflexivity.
  - pose proof (IH rid (record_event rid (EvConsole Stdout line) st) Hfree) as H.
    simpl exec_calls in H. rewrite H.
    simpl. rewrite <- List.app_assoc. reflexivity.
  - pose proof (IH rid (record_event rid (EvSend r) st) Hfree) as H.
    simpl exec_calls in H. rewrite H.
    simpl. rewrite <- List.app_assoc. reflexivity.
  - pose proof (IH (Hmac.hmac_sha256_hex key data) rid
                   (record_event rid (EvHmac key data) st) Hfree) as H.
    simpl exec_calls in H. rewrite H.
    simpl. rewrite <- List.app_assoc. reflexivity.
  - pose proof (IH (process_env w !! var) rid
                   (record_event rid (EvGetEnv var) st) Hfree) as H.
    simpl exec_calls in H. rewrite H.
    simpl. rewrite <- List.app_assoc. reflexivity.
  - destruct (child_process_exec w (exec_calls st) command (child_env w env))
      as [e|out code].
    + pose proof (IH (Faulted e) rid (count_exec st) Hfree) as H.
      simpl exec_calls in H. rewrite H. reflexivity.
    + rewrite deliver_all_app.
      rewrite (deliver_chunks rid k (inflight st) out); [|reflexivity|exact Hfree].
      simpl. rewrite (take_parked rid k (inflight st) Hfree).
      match goal with
      | |- deliver_all w this (drive w rid _ ?s) _ = _ =>
          pose proof (IH (Exited code) rid s Hfree) as H
      end.
      simpl exec_calls in H. rewrite H.
      simpl. rewrite List.map_app, <- !List.app_assoc. reflexivity.
Qed.

(** A request that arrives when nothing is in flight and is left alone
    runs to its end, whatever the oracle: afterwards nothing is in flight
    and the journal has grown by the trace of [run]. *)
Corollary request_alone_follows_run (st : Loop) (trigger : option Js.Json) :
  inflight st = [] ->
  deliver_all w this st
    (Incoming trigger
       :: script w (next_request st) (exec_calls st) (postPipeline this trigger))
  = MkLoop (S (next_request st))
           (execs (run w (exec_calls st) (postPipeline this trigger)))
           []
           (journal st ++
              map (pair (next_request st))
                  (trace (run w (exec_calls st) (postPipeline this trigger))))
           (escaped st ++
              escape_of (next_request st)
                (outcome (run w (exec_calls st) (postPipeline this trigger)))).
Proof.
  intros Hidle.
  change (deliver_all w this st (Incoming trigger :: ?l))
    with (deliver_all w this
            (drive w (next_request st) (postPipeline this trigger)
                   (accept_request st)) l).
  pose proof (loop_follows_run (postPipeline this trigger) (next_request st)
                (accept_request st)) as H.
  simpl exec_calls in H. rewrite H.
  - simpl. rewrite Hidle. reflexivity.
  - intros e He. simpl in He. rewrite Hidle in He. destruct He.
Qed.

End Adequacy.

(** ** Line 77 as written *)

(** With [childProcess] read inside its own initialiser no child ever
    starts: an authorised request is answered 500 with the text of the
    ReferenceError. *)
Example line_77_as_written :
  sent (trace Sample.as_written_run)
    = [MkResponse 500
         "Error executing pipeline: ReferenceError: Cannot access 'childProcess' before initialization"]
  /\ spawns (trace Sample.as_written_run) = []
  /\ execs Sample.as_written_run = 1%nat.
Proof. vm_compute. repeat split. Qed.

(** * Further properties of the code *)

(** ** Building the pipeline and running it *)

Section MoreRuns.

Import Controller.

Context (w : World).

Lemma add_all_steps (steps : list IPipelineStep) :
  forall this : SecureDevOpsPipelineController,
  pipelineSteps (add_all this steps) = pipelineSteps this ++ steps
  /\ config (add_all this steps) = config this
  /\ tlsOptions (add_all this steps) = tlsOptions this.
Proof.
  induction steps as [|step steps IH]; intros this; simpl.
  - rewrite List.app_nil_r. auto.
  - destruct (IH (addPipelineStep this step)) as (Hs & Hc & Ht).
    rewrite Hs, Hc, Ht. simpl. rewrite <- List.app_assoc. auto.
Qed.

(** The loop when the first steps exit with 0 and [exec] throws for the
    next one. *)
Lemma run_steps_until_fault (pre post : list IPipelineStep)
    (step : IPipelineStep) (e : Js.Error) (n : nat) :
  all_exit_zero w n pre ->
  child_process_exec w (n + List.length pre) (command step)
                     (environmentVariables step) = SpawnFault e ->
  spawns (trace (run w n (executeSteps (pre ++ step :: post))))
    = map spawn_of pre
  /\ execs (run w n (executeSteps (pre ++ step :: post)))
     = S (n + List.length pre)
  /\ outcome (run w n (executeSteps (pre ++ step :: post))) = Rejected e.
Proof.
  intros Hpre Hstep.
  destruct (run_steps_prefix w pre (step :: post) n Hpre)
    as (tr & Hrun & Hsp & _).
  rewrite Hrun, (run_steps_cons_fault w _ _ _ _ Hstep). simpl.
  rewrite spawns_app, Hsp. simpl. rewrite List.app_nil_r. auto.
Qed.

(** What a request let through adds to the run of the steps: the digest
    and the read of the variable before, one answer after. *)
Lemma run_postPipeline_valid (this : SecureDevOpsPipelineController)
    (t : string) (n : nat) :
  valid_trigger w this t ->
  spawns (trace (run w n (postPipeline this (Some (Js.JString t)))))
    = spawns (trace (run w n (executePipelineSteps this)))
  /\ execs (run w n (postPipeline this (Some (Js.JString t))))
     = execs (run w n (executePipelineSteps this))
  /\ outcome (run w n (postPipeline this (Some (Js.JString t)))) = Resolved tt.
Proof.
  intros [Ht Htok]. rewrite (run_postPipeline_string w this t n Ht).
  apply strict_neq_false in Htok. rewrite Htok, run_respond. simpl.
  rewrite spawns_app. simpl. rewrite List.app_nil_r. auto.
Qed.

(** X2: when, in an authorised run, the steps before some step exit with
    0 and the call of [exec] for that step throws, the handler answers 500
    with "Error executing pipeline: " followed by the text of the error;
    the children started are those of the steps before, and [exec] is not
    called again for a later step. *)
Theorem X2_exec_throw_answers_500_and_stops
    (this : SecureDevOpsPipelineController) (t : string) (n : nat)
    (pre post : list IPipelineStep) (step : IPipelineStep) (e : Js.Error) :
  valid_trigger w this t ->
  pipelineSteps this = pre ++ step :: post ->
  all_exit_zero w n pre ->
  child_process_exec w (n + List.length pre) (command step)
                     (environmentVariables step) = SpawnFault e ->
  sent (trace (run w n (postPipeline this (Some (Js.JString t)))))
    = [MkResponse 500 ("Error executing pipeline: " +:+ Js.toString e)]
  /\ spawns (trace (run w n (postPipeline this (Some (Js.JString t)))))
     = map spawn_of pre
  /\ execs (run w n (postPipeline this (Some (Js.JString t))))
     = S (n + List.length pre).
Proof.
  intros Hvalid Hsteps Hpre Hstep.
  destruct (run_postPipeline_valid this t n Hvalid) as (Hsp & Hex & _).
  rewrite (sent_postPipeline_valid w this t n Hvalid), Hsp, Hex.
  unfold executePipelineSteps. rewrite Hsteps.
  destruct (run_steps_until_fault pre post step e n Hpre Hstep)
    as (H1 & H2 & H3).
  rewrite H1, H2, H3. auto.
Qed.

(** X8: a controller to which no step was added answers an authorised
    trigger 200 at once: the digest is checked and the answer sent, with
    no line logged and no call of [exec]. *)
Theorem X8_no_steps_answers_200_at_once (readFileSync : string -> string)
    (cfg : IConfig) (t : string) (n : nat) :
  valid_trigger w (constructor readFileSync cfg) t ->
  run w n (postPipeline (constructor readFileSync cfg) (Some (Js.JString t)))
  = MkRun [ EvHmac (pipelineName cfg) t; EvGetEnv "TRIGGER_TOKEN";
            EvSend (MkResponse 200 "Pipeline executed successfully") ]
          n (Resolved tt).
Proof.
  intros [Ht Htok]. rewrite (run_postPipeline_string w _ t n Ht).
  apply strict_neq_false in Htok. rewrite Htok. reflexivity.
Qed.

End MoreRuns.

(** ** What the handler does with any body *)

Section MoreHandler.

Import Controller.

Context (w : World).

(** X3: a trigger that is truthy but not a string (a number other than
    0, [true], an array, an object) makes [update] throw a TypeError out
    of the handler: the handler itself sends no answer, does not read the
    environment and starts no step. *)
Theorem X3_non_string_trigger_throws
    (this : SecureDevOpsPipelineController) (trigger : option Js.Json)
    (n : nat) :
  Js.truthy trigger = true ->
  (forall s : string, trigger <> Some (Js.JString s)) ->
  run w n (postPipeline this trigger) = MkRun [] n (Rejected invalid_arg_type).
Proof.
  intros Htruthy Hnot. unfold postPipeline. rewrite Htruthy. simpl.
  destruct trigger as [[| | |s| |]|]; try reflexivity.
  exfalso. exact (Hnot s eq_refl).
Qed.

(** The three ways the handler can go. *)
Lemma postPipeline_cases (this : SecureDevOpsPipelineController)
    (trigger : option Js.Json) (n : nat) :
  run w n (postPipeline this trigger) = MkRun [EvSend unauthorized] n (Resolved tt)
  \/ run w n (postPipeline this trigger) = MkRun [] n (Rejected invalid_arg_type)
  \/ exists t : string,
       trigger = Some (Js.JString t) /\ t <> ""
       /\ run w n (postPipeline this trigger) =
          if Js.strict_neq (Hmac.hmac_sha256_hex (pipelineName (config this)) t)
                           (process_env w !! "TRIGGER_TOKEN")
          then MkRun [EvHmac (pipelineName (config this)) t;
                      EvGetEnv "TRIGGER_TOKEN"; EvSend unauthorized]
                     n (Resolved tt)
          else emit [EvHmac (pipelineName (config this)) t;
                     EvGetEnv "TRIGGER_TOKEN"]
                    (run w n (respond this)).
Proof.
  destruct (Js.truthy trigger) eqn:Htruthy.
  - destruct trigger as [[| |z|s| |]|];
      try (right; left; unfold postPipeline; rewrite Htruthy; reflexivity);
      try discriminate Htruthy.
    right. right. exists s.
    assert (Hs : s <> "").
    { simpl in Htruthy. apply negb_true_iff, String.eqb_neq in Htruthy.
      exact Htruthy. }
    split; [reflexivity|split; [exact Hs|]].
    apply run_postPipeline_string, Hs.
  - left. apply falsy_trigger_unauthorized, Htruthy.
Qed.

(** X4: whatever the body and whatever the children do, the handler
    either sends exactly one answer and returns normally, or throws
    before any effect; it never answers twice and never returns without
    an answer. *)
Theorem X4_exactly_one_answer_or_a_throw
    (this : SecureDevOpsPipelineController) (trigger : option Js.Json)
    (n : nat) :
  (outcome (run w n (postPipeline this trigger)) = Resolved tt
   /\ List.length (sent (trace (run w n (postPipeline this trigger)))) = 1%nat)
  \/ run w n (postPipeline this trigger) = MkRun [] n (Rejected invalid_arg_type).
Proof.
  destruct (postPipeline_cases this trigger n) as [H|[H|(t & _ & _ & H)]].
  - left. rewrite H. auto.
  - right. exact H.
  - left. rewrite H. destruct (Js.strict_neq _ _); [auto|].
    simpl. rewrite sent_respond, run_respond. auto.
Qed.

(** X6: no command runs for a request that is not authorised.  Either
    the trigger is a non-empty string whose digest under the pipeline
    name is the value of TRIGGER_TOKEN, or the handler starts no child
    and does not call [exec] at all. *)
Theorem X6_exec_only_for_a_valid_trigger
    (this : SecureDevOpsPipelineController) (trigger : option Js.Json)
    (n : nat) :
  (exists t : string, trigger = Some (Js.JString t) /\ valid_trigger w this t)
  \/ (spawns (trace (run w n (postPipeline this trigger))) = []
      /\ execs (run w n (postPipeline this trigger)) = n).
Proof.
  destruct (postPipeline_cases this trigger n) as [H|[H|(t & Ht & Hne & H)]].
  - right. rewrite H. auto.
  - right. rewrite H. auto.
  - destruct (Js.strict_neq _ _) eqn:E.
    + right. rewrite H. auto.
    + left. exists t. split; [exact Ht|]. split; [exact Hne|].
      apply strict_neq_false, E.
Qed.

Lemma hex_digit_lower (n : Z) : is_lower_hex (Hmac.hex_digit n) = true.
Proof.
  unfold Hmac.hex_digit.
  destruct (Z.to_nat n) as [|[|[|[|[|[|[|[|[|[|[|[|[|[|[|[|m]]]]]]]]]]]]]]]];
    try reflexivity.
  simpl. destruct m; reflexivity.
Qed.

Lemma hex_lower (bytes : list Z) :
  all_chars is_lower_hex (Hmac.hex bytes) = true.
Proof.
  induction bytes as [|b rest IH]; [reflexivity|].
  simpl. rewrite !hex_digit_lower, IH. reflexivity.
Qed.

(** X7: a TRIGGER_TOKEN that is not 64 characters long, or that holds a
    character other than 0-9 and a-f (an upper-case hex digit, say),
    authorises nothing: every string trigger is answered 401 and no step
    runs. *)
Theorem X7_malformed_token_refuses_every_trigger
    (this : SecureDevOpsPipelineController) (p t : string) (n : nat) :
  process_env w !! "TRIGGER_TOKEN" = Some p ->
  String.length p <> 64%nat \/ all_chars is_lower_hex p = false ->
  sent (trace (run w n (postPipeline this (Some (Js.JString t)))))
    = [MkResponse 401 "Unauthorized"]
  /\ spawns (trace (run w n (postPipeline this (Some (Js.JString t))))) = [].
Proof.
  intros Hp Hbad.
  assert (Hne : Js.strict_neq
                  (Hmac.hmac_sha256_hex (pipelineName (config this)) t)
                  (Some p) = true).
  { destruct (Js.strict_neq _ _) eqn:E; [reflexivity|].
    apply strict_neq_false in E. injection E as ->. exfalso.
    destruct Hbad as [Hlen|Hchars].
    - apply Hlen, hmac_sha256_hex_length.
    - unfold Hmac.hmac_sha256_hex in Hchars. rewrite hex_lower in Hchars.
      discriminate. }
  destruct (postPipeline_cases this (Some (Js.JString t)) n)
    as [H|[H|(t' & Ht' & _ & H)]].
  - rewrite H. auto.
  - exfalso. destruct (String.eqb t "") eqn:E.
    + rewrite (falsy_trigger_unauthorized w this (Some (Js.JString t)) n) in H;
        [discriminate|]. simpl. rewrite E. reflexivity.
    + apply String.eqb_neq in E.
      rewrite (run_postPipeline_string w this t n E), Hp, Hne in H.
      discriminate.
  - injection Ht' as <-. rewrite H, Hp, Hne. auto.
Qed.

End MoreHandler.

(** ** Answers under interleaving *)

Section MoreLoop.

Import Controller EventLoop.

Context (w : World) (this : SecureDevOpsPipelineController).

Lemma events_in_app (rid : nat) (j1 j2 : list (nat * Event)) :
  events_in rid (j1 ++ j2) = events_in rid j1 ++ events_in rid j2.
Proof.
  unfold events_in. rewrite List.filter_app, List.map_app. reflexivity.
Qed.

Lemma events_in_own (rid : nat) (evs : list Event) :
  events_in rid (map (pair rid) evs) = evs.
Proof.
  unfold events_in. induction evs as [|ev evs IH]; simpl; [reflexivity|].
  rewrite Nat.eqb_refl. simpl. rewrite IH. reflexivity.
Qed.

Lemma events_in_other (rid rid' : nat) (evs : list Event) :
  rid' <> rid -> events_in rid' (map (pair rid) evs) = [].
Proof.
  intros Hne. unfold events_in.
  induction evs as [|ev evs IH]; simpl; [reflexivity|].
  replace (Nat.eqb rid rid') with false; [exact IH|].
  symmetry. apply Nat.eqb_neq. congruence.
Qed.

Lemma events_in_fresh (rid : nat) (j : list (nat * Event)) :
  Forall (fun e => (fst e < rid)%nat) j -> events_in rid j = [].
Proof.
  intros H. unfold events_in.
  induction H as [|e l He _ IH]; simpl; [reflexivity|].
  replace (Nat.eqb (fst e) rid) with false; [exact IH|].
  symmetry. apply Nat.eqb_neq. lia.
Qed.

(** The synchronous part of a task that answers last sends at most one
    answer, and none if it parks a continuation. *)
Lemma drive_once (t : Task unit) : forall (rid : nat) (st : Loop),
  answers_last t ->
  exists (evs : list Event) (ks : list (Spawned -> Task unit)),
    journal (drive w rid t st) = journal st ++ map (pair rid) evs
    /\ inflight (drive w rid t st) = inflight st ++ map (pair rid) ks
    /\ (List.length (sent evs) <= 1)%nat
    /\ (ks = []
        \/ exists k : Spawned -> Task unit,
             ks = [k] /\ sent evs = []
             /\ forall r : Spawned, answers_last (k r)).
Proof.
  induction t as [a|e|line k IH|r k IH|key data k IH|var k IH|command env k IH];
    intros rid st Ht; simpl in Ht |- *.
  - exists [], []. simpl. rewrite !List.app_nil_r. auto.
  - exists [], []. simpl. rewrite !List.app_nil_r. auto.
  - destruct (IH rid (record_event rid (EvConsole Stdout line) st) Ht)
      as (evs & ks & Hj & Hi & Hlen & Hks).
    exists (EvConsole Stdout line :: evs), ks.
    rewrite Hj, Hi. simpl. rewrite <- List.app_assoc. auto.
  - subst k. exists [EvSend r], []. simpl. rewrite List.app_nil_r. auto.
  - destruct (IH (Hmac.hmac_sha256_hex key data) rid
                 (record_event rid (EvHmac key data) st) (Ht _))
      as (evs & ks & Hj & Hi & Hlen & Hks).
    exists (EvHmac key data :: evs), ks.
    rewrite Hj, Hi. simpl. rewrite <- List.app_assoc. auto.
  - destruct (IH (process_env w !! var) rid
                 (record_event rid (EvGetEnv var) st) (Ht _))
      as (evs & ks & Hj & Hi & Hlen & Hks).
    exists (EvGetEnv var :: evs), ks.
    rewrite Hj, Hi. simpl. rewrite <- List.app_assoc. auto.
  - destruct (child_process_exec w (exec_calls st) command (child_env w env))
      as [e|out code].
    + destruct (IH (Faulted e) rid (count_exec st) (Ht _))
        as (evs & ks & Hj & Hi & Hlen & Hks).
      exists evs, ks. rewrite Hj, Hi. auto.
    + exists [EvSpawn command (child_env w env)], [k]. simpl.
      repeat split; auto. right. exists k. auto.
Qed.

Lemma NoDup_snoc (x : nat) (l : list nat) :
  List.NoDup l -> ~ In x l -> List.NoDup (l ++ [x]).
Proof.
  induction 1 as [|y l Hy Hl IH]; intros Hx; simpl.
  - apply List.NoDup_cons; [intros []|apply List.NoDup_nil].
  - apply List.NoDup_cons.
    + rewrite List.in_app_iff. simpl. intros [H|[H|[]]]; [auto|].
      apply Hx. left. symmetry. exact H.
    + apply IH. intros H. apply Hx. right. exact H.
Qed.

(** Resuming or starting the run of a request that has no answer yet and
    nothing parked keeps the loop in order. *)
Lemma drive_orderly (t : Task unit) (rid : nat) (st : Loop) :
  answers_last t ->
  (rid < next_request st)%nat ->
  ~ In rid (map fst (inflight st)) ->
  sent (events_of rid st) = [] ->
  orderly st -> orderly (drive w rid t st).
Proof.
  intros Ht Hrid Hfree Hsent (Hwf & Hnd & Hall & Honce).
  destruct (drive_once t rid st Ht) as (evs & ks & Hj & Hi & Hlen & Hks).
  assert (Hev : forall rid',
             events_of rid' (drive w rid t st)
             = events_of rid' st ++ if Nat.eqb rid' rid then evs else []).
  { intros rid'.
    change (events_in rid' (journal (drive w rid t st))
            = events_in rid' (journal st)
              ++ if Nat.eqb rid' rid then evs else []).
    rewrite Hj, events_in_app.
    destruct (Nat.eqb_spec rid' rid) as [->|Hne].
    - rewrite events_in_own. reflexivity.
    - rewrite (events_in_other rid rid' evs Hne). reflexivity. }
  split; [|split; [|split]].
  - apply drive_well_numbered; assumption.
  - rewrite Hi, List.map_app.
    destruct Hks as [->|(k & -> & _)]; simpl.
    + rewrite List.app_nil_r. exact Hnd.
    + apply NoDup_snoc; assumption.
  - rewrite Hi. apply Forall_app. split.
    + rewrite List.Forall_forall in Hall |- *. intros e He.
      destruct (Hall e He) as [Hs Hk]. split; [|exact Hk].
      rewrite Hev.
      replace (Nat.eqb (fst e) rid) with false;
        [rewrite List.app_nil_r; exact Hs|].
      symmetry. apply Nat.eqb_neq. intros E. apply Hfree.
      rewrite <- E. apply List.in_map, He.
    + destruct Hks as [->|(k & -> & Hnone & Hk)]; simpl; [constructor|].
      constructor; [|constructor]. simpl. split; [|exact Hk].
      rewrite Hev, Nat.eqb_refl, sent_app, Hsent, Hnone. reflexivity.
  - intros rid'. rewrite Hev, sent_app, List.length_app.
    destruct (Nat.eqb_spec rid' rid) as [->|Hne].
    + rewrite Hsent. simpl. exact Hlen.
    + simpl. rewrite Nat.add_0_r. apply Honce.
Qed.

Lemma take_split {K : Type} (rid : nat) (l : list (nat * K)) :
  forall (k : K) (rest : list (nat * K)),
  take rid l = Some (k, rest) ->
  exists l1 l2, l = l1 ++ (rid, k) :: l2 /\ rest = l1 ++ l2.
Proof.
  induction l as [|[r k0] l IH]; intros k rest Htake; simpl in Htake.
  - discriminate.
  - destruct (Nat.eqb r rid) eqn:E.
    + apply Nat.eqb_eq in E. injection Htake as <- <-. subst r.
      exists [], l. auto.
    + destruct (take rid l) as [[k' rest']|]; [|discriminate].
      injection Htake as <- <-.
      destruct (IH k' rest' eq_refl) as (l1 & l2 & -> & ->).
      exists ((r, k0) :: l1), l2. auto.
Qed.

Lemma deliver_orderly (st : Loop) (i : Input) :
  orderly st -> orderly (deliver w this st i).
Proof.
  intros Hst. pose proof Hst as (Hwf & Hnd & Hall & Honce).
  destruct i as [trigger|rid chunk|rid code]; simpl.
  - pose proof Hwf as (Hj & _ & Hi).
    apply drive_orderly.
    + apply postPipeline_answers_last.
    + simpl. lia.
    + simpl. intros Hin. apply List.in_map_iff in Hin as (e & He & Hin).
      rewrite List.Forall_forall in Hi. specialize (Hi e Hin). lia.
    + change (sent (events_in (next_request st) (journal st)) = []).
      rewrite (events_in_fresh _ _ Hj). reflexivity.
    + split; [apply accept_well_numbered, Hwf|]. auto.
  - destruct (take rid (inflight st)) as [[k rest]|] eqn:Htake; [|exact Hst].
    assert (Hev : forall rid',
               sent (events_of rid' (record_event rid (data_line chunk) st))
               = sent (events_of rid' st)).
    { intros rid'.
      change (sent (events_in rid' (journal st ++ map (pair rid) [data_line chunk]))
              = sent (events_in rid' (journal st))).
      rewrite events_in_app, sent_app.
      destruct (Nat.eqb_spec rid' rid) as [->|Hne].
      - rewrite events_in_own.
        destruct chunk as [[] c]; simpl; apply List.app_nil_r.
      - rewrite (events_in_other rid rid' _ Hne). apply List.app_nil_r. }
    split; [|split; [|split]].
    + apply (deliver_well_numbered w this st (ChildData rid chunk)) in Hwf.
      simpl in Hwf. rewrite Htake in Hwf. exact Hwf.
    + exact Hnd.
    + simpl. eapply List.Forall_impl; [|exact Hall].
      intros e [Hs Hk]. rewrite Hev. auto.
    + intros rid'. rewrite Hev. apply Honce.
  - destruct (take rid (inflight st)) as [[k rest]|] eqn:Htake; [|exact Hst].
    destruct (take_split rid _ k rest Htake) as (l1 & l2 & Hl & Hrest).
    pose proof Hwf as (Hj & He & Hi).
    destruct (take_Forall _ rid _ k rest Htake Hi) as [Hrid Hirest].
    destruct (take_Forall _ rid _ k rest Htake Hall) as [[Hsent Hk] Hallrest].
    rewrite Hl, List.map_app in Hnd. simpl in Hnd.
    apply List.NoDup_remove in Hnd as [Hnd Hfree].
    rewrite <- List.map_app, <- Hrest in Hnd, Hfree.
    apply drive_orderly.
    + apply Hk.
    + exact Hrid.
    + exact Hfree.
    + exact Hsent.
    + repeat split; assumption.
Qed.

(** Every state the server can reach is in order. *)
Lemma reachable_orderly (inputs : list Input) :
  orderly (deliver_all w this initial inputs).
Proof.
  assert (H : forall st, orderly st -> orderly (deliver_all w this st inputs)).
  { induction inputs as [|i inputs IH]; intros st Hst; simpl; [exact Hst|].
    apply IH, deliver_orderly, Hst. }
  apply H.
  split; [repeat split; constructor|].
  split; [apply List.NoDup_nil|].
  split; [constructor|]. intros rid. simpl. lia.
Qed.

(** X5: whatever requests arrive and however the exits of their children
    interleave, no request is answered twice, and a request whose run is
    still waiting for a child has not been answered. *)
Theorem X5_no_request_is_answered_twice (inputs : list Input) (rid : nat) :
  (List.length (sent (events_of rid (deliver_all w this initial inputs))) <= 1)%nat
  /\ (In rid (running (deliver_all w this initial inputs)) ->
      sent (events_of rid (deliver_all w this initial inputs)) = []).
Proof.
  destruct (reachable_orderly inputs) as (_ & _ & Hall & Honce).
  split; [apply Honce|].
  intros Hin. unfold running in Hin.
  apply List.in_map_iff in Hin as (e & <- & Hin).
  rewrite List.Forall_forall in Hall. apply (Hall e Hin).
Qed.

End MoreLoop.

(** ** The further properties at concrete inputs *)

Section MoreWitnesses.

Import Controller EventLoop.

Lemma X2_witness :
  sent (trace (run Sample.deploy_faults 0
                   (postPipeline Sample.controller (Some (Js.JString "go")))))
  = [MkResponse 500
       ("Error executing pipeline: "
          +:+ Js.toString (Js.MkError "Error" "spawn EAGAIN"))].
Proof.
  refine (proj1 (X2_exec_throw_answers_500_and_stops Sample.deploy_faults
                   Sample.controller "go" 0
                   [{| name := "Build"; command := "npm run build";
                       environmentVariables := {[ "NODE_ENV" := "production" ]} |}]
                   []
                   {| name := "Deploy"; command := "docker deploy -p staging";
                      environmentVariables :=
                        {[ "DEPLOYMENT_ENVIRONMENT" := "staging" ]} |}
                   (Js.MkError "Error" "spawn EAGAIN") _ _ _ _)).
  - split; [discriminate|vm_compute; reflexivity].
  - reflexivity.
  - intros i s Hs. destruct i as [|i]; [|destruct i; discriminate Hs].
    exists []. injection Hs as <-. reflexivity.
  - reflexivity.
Defined.

Lemma X3_witness :
  run Sample.all_pass 0 (postPipeline Sample.controller (Some (Js.JNumber 7)))
  = MkRun [] 0 (Rejected invalid_arg_type).
Proof.
  apply (X3_non_string_trigger_throws Sample.all_pass Sample.controller
           (Some (Js.JNumber 7)) 0).
  - reflexivity.
  - intros s. discriminate.
Defined.

Lemma X7_witness :
  sent (trace (run More.plain_token 0
                   (postPipeline Sample.controller (Some (Js.JString "go")))))
  = [MkResponse 401 "Unauthorized"].
Proof.
  refine (proj1 (X7_malformed_token_refuses_every_trigger More.plain_token
                   Sample.controller "letmein" "go" 0 _ _)).
  - vm_compute. reflexivity.
  - left. simpl. lia.
Defined.

Lemma X8_witness :
  run Sample.all_pass 0
      (postPipeline (constructor (fun _ => "") Sample.argv)
                    (Some (Js.JString "go")))
  = MkRun [ EvHmac (pipelineName Sample.argv) "go"; EvGetEnv "TRIGGER_TOKEN";
            EvSend (MkResponse 200 "Pipeline executed successfully") ]
          0 (Resolved tt).
Proof.
  apply (X8_no_steps_answers_200_at_once Sample.all_pass (fun _ => "")
           Sample.argv "go" 0).
  split; [discriminate|vm_compute; reflexivity].
Defined.

End MoreWitnesses.

(** ** The order of the steps under interleaving *)

Section MoreOrder.

Import Controller EventLoop.

Context (w : World) (this : SecureDevOpsPipelineController).

(** A task that never calls [exec] follows any plan. *)
Lemma follows_nil_any {A : Type} (plan : list (string * Env)) (t : Task A) :
  follows [] t -> follows plan t.
Proof.
  induction t; simpl; intros Ht; auto. destruct Ht.
Qed.

Lemma follows_bind {A B : Type} (t : Task A) (f : A -> Task B) :
  forall plan : list (string * Env),
  follows plan t -> (forall a, follows [] (f a)) -> follows plan (bind t f).
Proof.
  induction t as [a|e|line k IH|r k IH|key data k IH|var k IH|command env k IH];
    intros plan Ht Hf; simpl in Ht |- *; auto.
  - apply follows_nil_any, Hf.
  - destruct plan as [|p rest]; [destruct Ht|].
    destruct Ht as (Hc & He & Hfault & Hexit). auto.
Qed.

Lemma follows_catch {A : Type} (t : Task A) (h : Js.Error -> Task A) :
  forall plan : list (string * Env),
  follows plan t -> (forall e, follows [] (h e)) -> follows plan (catch t h).
Proof.
  induction t as [a|e|line k IH|r k IH|key data k IH|var k IH|command env k IH];
    intros plan Ht Hh; simpl in Ht |- *; auto.
  - apply follows_nil_any, Hh.
  - destruct plan as [|p rest]; [destruct Ht|].
    destruct Ht as (Hc & He & Hfault & Hexit). auto.
Qed.

(** The step loop follows the plan its steps make. *)
Lemma executeSteps_follows (steps : list IPipelineStep) :
  follows (map spawn_of steps) (executeSteps steps).
Proof.
  induction steps as [|step rest IH]; simpl; [exact I|].
  repeat split.
  - intros code. destruct (Js.is_zero code); simpl; [exact IH|exact I].
Qed.

Lemma postPipeline_follows (trigger : option Js.Json) :
  follows (map spawn_of (pipelineSteps this)) (postPipeline this trigger).
Proof.
  unfold postPipeline.
  destruct (Js.truthy trigger); simpl; [|exact I].
  destruct trigger as [[| | |s| |]|]; simpl; try exact I.
  intros d v. destruct (Js.strict_neq d v); simpl; [exact I|].
  unfold respond. apply follows_catch; [apply follows_bind|].
  - apply executeSteps_follows.
  - intros _. exact I.
  - intros e. exact I.
Qed.

(** The synchronous part of a task that follows a plan starts at most the
    next child of the plan, and what it parks follows the rest. *)
Lemma drive_follows (t : Task unit) :
  forall (plan : list (string * Env)) (rid : nat) (st : Loop),
  follows plan t ->
  exists (evs : list Event) (ks : list (Spawned -> Task unit))
         (rest : list (string * Env)),
    journal (drive w rid t st) = journal st ++ map (pair rid) evs
    /\ inflight (drive w rid t st) = inflight st ++ map (pair rid) ks
    /\ plan = spawns evs ++ rest
    /\ (ks = []
        \/ exists k : Spawned -> Task unit,
             ks = [k]
             /\ (forall err, follows [] (k (Faulted err)))
             /\ (forall code, follows rest (k (Exited code)))).
Proof.
  induction t as [a|e|line k IH|r k IH|key data k IH|var k IH|command env k IH];
    intros plan rid st Ht; simpl in Ht |- *.
  - exists [], [], plan. simpl. rewrite !List.app_nil_r. auto.
  - exists [], [], plan. simpl. rewrite !List.app_nil_r. auto.
  - destruct (IH plan rid (record_event rid (EvConsole Stdout line) st) Ht)
      as (evs & ks & rest & Hj & Hi & Hp & Hks).
    exists (EvConsole Stdout line :: evs), ks, rest.
    rewrite Hj, Hi. simpl. rewrite <- List.app_assoc. auto.
  - destruct (IH plan rid (record_event rid (EvSend r) st) Ht)
      as (evs & ks & rest & Hj & Hi & Hp & Hks).
    exists (EvSend r :: evs), ks, rest.
    rewrite Hj, Hi. simpl. rewrite <- List.app_assoc. auto.
  - destruct (IH (Hmac.hmac_sha256_hex key data) plan rid
                 (record_event rid (EvHmac key data) st) (Ht _))
      as (evs & ks & rest & Hj & Hi & Hp & Hks).
    exists (EvHmac key data :: evs), ks, rest.
    rewrite Hj, Hi. simpl. rewrite <- List.app_assoc. auto.
  - destruct (IH (process_env w !! var) plan rid
                 (record_event rid (EvGetEnv var) st) (Ht _))
      as (evs & ks & rest & Hj & Hi & Hp & Hks).
    exists (EvGetEnv var :: evs), ks, rest.
    rewrite Hj, Hi. simpl. rewrite <- List.app_assoc. auto.
  - destruct plan as [|[c0 e0] plan']; [destruct Ht|].
    destruct Ht as (-> & -> & Hfault & Hexit). unfold child_env. simpl.
    destruct (child_process_exec w (exec_calls st) c0 e0) as [e|out code].
    + destruct (IH (Faulted e) [] rid (count_exec st) (Hfault e))
        as (evs & ks & rest & Hj & Hi & Hp & Hks).
      symmetry in Hp. apply List.app_eq_nil in Hp as [Hevs ->].
      exists evs, ks, ((c0, e0) :: plan').
      rewrite Hj, Hi, Hevs. simpl. repeat split.
      destruct Hks as [->|(k' & -> & Hf' & He')]; [left; reflexivity|].
      right. exists k'. repeat split; [exact Hf'|].
      intros code. apply follows_nil_any, He'.
    + exists [EvSpawn c0 e0], [k], plan'. simpl. repeat split.
      right. exists k. auto.
Qed.

(** Resuming or starting a run that is on the plan keeps every request on
    the plan. *)
Lemma drive_on_plan (plan rest : list (string * Env)) (t : Task unit)
    (rid : nat) (st : Loop) :
  follows rest t ->
  plan = spawns (events_of rid st) ++ rest ->
  ~ In rid (map fst (inflight st)) ->
  on_plan plan st -> on_plan plan (drive w rid t st).
Proof.
  intros Ht Hplan Hfree [Hall Hevery].
  destruct (drive_follows t rest rid st Ht)
    as (evs & ks & rest' & Hj & Hi & Hrest & Hks).
  assert (Hev : forall rid',
             events_of rid' (drive w rid t st)
             = events_of rid' st ++ if Nat.eqb rid' rid then evs else []).
  { intros rid'.
    change (events_in rid' (journal (drive w rid t st))
            = events_in rid' (journal st)
              ++ if Nat.eqb rid' rid then evs else []).
    rewrite Hj, events_in_app.
    destruct (Nat.eqb_spec rid' rid) as [->|Hne].
    - rewrite events_in_own. reflexivity.
    - rewrite (events_in_other rid rid' evs Hne). reflexivity. }
  assert (Hown : plan = spawns (events_of rid (drive w rid t st)) ++ rest').
  { rewrite Hev, Nat.eqb_refl, spawns_app, <- List.app_assoc, <- Hrest.
    exact Hplan. }
  split.
  - rewrite Hi. apply Forall_app. split.
    + rewrite List.Forall_forall in Hall |- *. intros e He.
      destruct (Hall e He) as (r & Hr & Hf & Hx). exists r.
      rewrite Hev.
      replace (Nat.eqb (fst e) rid) with false;
        [rewrite List.app_nil_r; auto|].
      symmetry. apply Nat.eqb_neq. intros E. apply Hfree.
      rewrite <- E. apply List.in_map, He.
    + destruct Hks as [->|(k & -> & Hf & Hx)]; simpl; [constructor|].
      constructor; [|constructor]. exists rest'. simpl. auto.
  - intros rid'. destruct (Nat.eqb_spec rid' rid) as [->|Hne].
    + exists rest'. exact Hown.
    + destruct (Hevery rid') as (r & Hr). exists r. rewrite Hev.
      replace (Nat.eqb rid' rid) with false;
        [rewrite List.app_nil_r; exact Hr|].
      symmetry. apply Nat.eqb_neq, Hne.
Qed.

Lemma deliver_on_plan (st : Loop) (i : Input) :
  orderly st ->
  on_plan (map spawn_of (pipelineSteps this)) st ->
  on_plan (map spawn_of (pipelineSteps this)) (deliver w this st i).
Proof.
  intros (Hwf & Hnd & _ & _) Hst. pose proof Hst as [Hall Hevery].
  destruct i as [trigger|rid chunk|rid code]; simpl.
  - pose proof Hwf as (Hj & _ & Hi).
    apply (drive_on_plan _ (map spawn_of (pipelineSteps this))).
    + apply postPipeline_follows.
    + change (map spawn_of (pipelineSteps this)
              = spawns (events_in (next_request st) (journal st))
                ++ map spawn_of (pipelineSteps this)).
      rewrite (events_in_fresh _ _ Hj). reflexivity.
    + simpl. intros Hin. apply List.in_map_iff in Hin as (e & He & Hin).
      rewrite List.Forall_forall in Hi. specialize (Hi e Hin). lia.
    + exact Hst.
  - destruct (take rid (inflight st)) as [[k rest]|] eqn:Htake; [|exact Hst].
    assert (Hev : forall rid',
               spawns (events_of rid' (record_event rid (data_line chunk) st))
               = spawns (events_of rid' st)).
    { intros rid'.
      change (spawns (events_in rid' (journal st ++ map (pair rid) [data_line chunk]))
              = spawns (events_in rid' (journal st))).
      rewrite events_in_app, spawns_app.
      destruct (Nat.eqb_spec rid' rid) as [->|Hne].
      - rewrite events_in_own.
        destruct chunk as [[] c]; simpl; apply List.app_nil_r.
      - rewrite (events_in_other rid rid' _ Hne). apply List.app_nil_r. }
    split.
    + simpl. eapply List.Forall_impl; [|exact Hall].
      intros e (r & Hr & Hf & Hx). exists r. rewrite Hev. auto.
    + intros rid'. rewrite Hev. apply Hevery.
  - destruct (take rid (inflight st)) as [[k rest]|] eqn:Htake; [|exact Hst].
    destruct (take_split rid _ k rest Htake) as (l1 & l2 & Hl & Hrest).
    destruct (take_Forall _ rid _ k rest Htake Hall)
      as [(r & Hr & Hf & Hx) Hallrest].
    rewrite Hl, List.map_app in Hnd. simpl in Hnd.
    apply List.NoDup_remove in Hnd as [_ Hfree].
    rewrite <- List.map_app, <- Hrest in Hfree.
    apply (drive_on_plan _ r).
    + apply Hx.
    + exact Hr.
    + exact Hfree.
    + split; assumption.
Qed.

Lemma reachable_on_plan (inputs : list Input) :
  on_plan (map spawn_of (pipelineSteps this))
          (deliver_all w this initial inputs).
Proof.
  assert (H : forall st,
             orderly st ->
             on_plan (map spawn_of (pipelineSteps this)) st ->
             on_plan (map spawn_of (pipelineSteps this))
                     (deliver_all w this st inputs)).
  { induction inputs as [|i inputs IH]; intros st Ho Hst; simpl; [exact Hst|].
    apply IH; [apply deliver_orderly, Ho|apply deliver_on_plan; assumption]. }
  apply H.
  - apply (reachable_orderly w this []).
  - split; [constructor|]. intros rid. eexists. reflexivity.
Qed.

(** X13: however requests overlap and the exits of their children
    interleave, the children started for any one request are those of the
    first steps of the pipeline, in pipeline order, each with the command
    and the environment of its own step; no step is started twice or out
    of turn for a request. *)
Theorem X13_steps_stay_in_order_under_interleaving (inputs : list Input)
    (rid : nat) :
  exists rest : list (string * Env),
    map spawn_of (pipelineSteps this)
    = spawns (events_of rid (deliver_all w this initial inputs)) ++ rest.
Proof.
  destruct (reachable_on_plan inputs) as [_ Hevery]. apply Hevery.
Qed.

End MoreOrder.

(** ** The catalogue of answers *)

Section MoreAnswers.

Import Controller.

Context (w : World).

(** The step loop rejects only with the error of a child that exited
    with a code other than 0, or with the error a call of [exec] threw
    for one of the steps. *)
Lemma steps_rejection (steps : list IPipelineStep) : forall (n : nat) (e : Js.Error),
  outcome (run w n (executeSteps steps)) = Rejected e ->
  (exists code : option Z,
     Js.is_zero code = false
     /\ e = Js.new_Error ("Command failed with code " +:+ Js.show_code code))
  \/ (exists (m : nat) (step : IPipelineStep),
        In step steps
        /\ child_process_exec w m (command step) (environmentVariables step)
           = SpawnFault e).
Proof.
  induction steps as [|step rest IH]; intros n e Hout; [discriminate Hout|].
  destruct (child_process_exec w n (command step) (environmentVariables step))
    as [e'|out code] eqn:Hc.
  - rewrite (run_steps_cons_fault w _ _ _ _ Hc) in Hout. injection Hout as <-.
    right. exists n, step. split; [left; reflexivity|exact Hc].
  - destruct (Js.is_zero code) eqn:Hz.
    + destruct code as [[|p|p]|]; try discriminate Hz.
      rewrite (run_steps_cons_zero w _ _ _ _ Hc) in Hout. simpl in Hout.
      destruct (IH (S n) e Hout) as [H|(m & s & Hs & Hm)]; [left; exact H|].
      right. exists m, s. split; [right; exact Hs|exact Hm].
    + rewrite (run_steps_cons_nonzero w _ _ _ _ _ Hc Hz) in Hout.
      injection Hout as <-. left. exists code. auto.
Qed.

(** X14: the handler has four answers and no other.  Whatever the body
    and whatever the children do, it throws before answering, or answers
    401 "Unauthorized", or 200 "Pipeline executed successfully", or 500
    with "Error executing pipeline: " followed by the text of an error
    that is either "Command failed with code <code>" for a code other
    than 0 or the error a call of [exec] threw for one of the steps. *)
Theorem X14_the_answers_of_the_handler
    (this : SecureDevOpsPipelineController) (trigger : option Js.Json)
    (n : nat) :
  sent (trace (run w n (postPipeline this trigger))) = []
  \/ sent (trace (run w n (postPipeline this trigger)))
     = [MkResponse 401 "Unauthorized"]
  \/ sent (trace (run w n (postPipeline this trigger)))
     = [MkResponse 200 "Pipeline executed successfully"]
  \/ exists e : Js.Error,
       sent (trace (run w n (postPipeline this trigger)))
       = [MkResponse 500 ("Error executing pipeline: " +:+ Js.toString e)]
       /\ ((exists code : option Z,
              Js.is_zero code = false
              /\ e = Js.new_Error
                       ("Command failed with code " +:+ Js.show_code code))
           \/ (exists (m : nat) (step : IPipelineStep),
                 In step (pipelineSteps this)
                 /\ child_process_exec w m (command step)
                                       (environmentVariables step)
                    = SpawnFault e)).
Proof.
  destruct (postPipeline_cases w this trigger n) as [H|[H|(t & _ & _ & H)]].
  - right. left. rewrite H. reflexivity.
  - left. rewrite H. reflexivity.
  - rewrite H. destruct (Js.strict_neq _ _); [right; left; reflexivity|].
    simpl. rewrite sent_respond.
    destruct (outcome (run w n (executePipelineSteps this))) as [[]|e] eqn:Hout.
    + right. right. left. reflexivity.
    + right. right. right. exists e. split; [reflexivity|].
      apply (steps_rejection (pipelineSteps this) n e Hout).
Qed.

End MoreAnswers.

(** * Runs of the code as written *)

(** ** The step loop *)

Section WrittenRuns.

Import Controller.

Context (w : World).

Lemma all_exit_zero_nil (n : nat) : all_exit_zero w n [].
Proof. intros i s Hs. destruct i; discriminate Hs. Qed.

Lemma all_exit_zero_intro (n : nat) (step : IPipelineStep)
    (steps : list IPipelineStep) :
  exits_with w n step (Some 0%Z) -> all_exit_zero w (S n) steps ->
  all_exit_zero w n (step :: steps).
Proof.
  intros Hstep Hall i s Hs. destruct i as [|i].
  - injection Hs as <-. rewrite Nat.add_0_r. exact Hstep.
  - rewrite Nat.add_succ_r. apply (Hall i s Hs).
Qed.

(** The loop resolves only if every step exited with 0. *)
Lemma steps_resolved_all_zero (steps : list IPipelineStep) : forall n : nat,
  outcome (run w n (executeSteps steps)) = Resolved tt ->
  all_exit_zero w n steps.
Proof.
  induction steps as [|step rest IH]; intros n Hout; [apply all_exit_zero_nil|].
  destruct (child_process_exec w n (command step) (environmentVariables step))
    as [e|out code] eqn:Hc.
  - rewrite (run_steps_cons_fault w _ _ _ _ Hc) in Hout. discriminate Hout.
  - destruct (Js.is_zero code) eqn:Hz.
    + destruct code as [[|p|p]|]; try discriminate Hz.
      rewrite (run_steps_cons_zero w _ _ _ _ Hc) in Hout. simpl in Hout.
      apply all_exit_zero_intro; [exists out; exact Hc|apply IH, Hout].
    + rewrite (run_steps_cons_nonzero w _ _ _ _ _ Hc Hz) in Hout.
      discriminate Hout.
Qed.



End WrittenRuns.

(** ** The answer after the steps *)

Section WrittenAnswers.

Import Controller.







End WrittenAnswers.

(** ** Requests one after the other *)

Section WrittenLoop.

Import Controller EventLoop.




End WrittenLoop.

(** ** The executor between requests *)

Section WrittenIdle.

Import Controller EventLoop.

Context (w : World) (this : SecureDevOpsPipelineController).

Hypothesis Hwritten : never_spawns w.

(** When no call of [exec] starts a child, nothing is ever parked. *)
Lemma drive_never_parks (t : Task unit) : forall (rid : nat) (st : Loop),
  inflight (drive w rid t st) = inflight st.
Proof.
  induction t as [a|e|line k IH|r k IH|key data k IH|var k IH|command env k IH];
    intros rid st; simpl; try reflexivity.
  - rewrite IH. reflexivity.
  - rewrite IH. reflexivity.
  - rewrite IH. reflexivity.
  - rewrite IH. reflexivity.
  - destruct (Hwritten (exec_calls st) command (child_env w env)) as [e He].
    rewrite He, IH. reflexivity.
Qed.

Lemma script_never_spawns (t : Task unit) : forall rid n : nat,
  script w rid n t = [].
Proof.
  induction t as [a|e|line k IH|r k IH|key data k IH|var k IH|command env k IH];
    intros rid n; simpl; auto.
  destruct (Hwritten n command (child_env w env)) as [e He].
  rewrite He. apply IH.
Qed.

Lemma deliver_stays_idle (st : Loop) (i : Input) :
  inflight st = [] -> inflight (deliver w this st i) = [].
Proof.
  intros Hidle. destruct i as [trigger|rid chunk|rid code]; simpl.
  - rewrite drive_never_parks. exact Hidle.
  - rewrite Hidle. exact Hidle.
  - rewrite Hidle. exact Hidle.
Qed.

(** No state the server can reach has a run in flight. *)
Lemma reachable_idle (history : list Input) :
  inflight (deliver_all w this initial history) = [].
Proof.
  assert (H : forall st, inflight st = [] ->
                         inflight (deliver_all w this st history) = []).
  { induction history as [|i history IH]; intros st Hst; simpl; [exact Hst|].
    apply IH, deliver_stays_idle, Hst. }
  apply H. reflexivity.
Qed.

(** A request is over within the turn in which it arrives. *)
Lemma incoming_finished (st : Loop) (trigger : option Js.Json) :
  inflight st = [] ->
  finished (next_request st) (deliver w this st (Incoming trigger)) = true.
Proof.
  intros Hidle.
  assert (Hfree : not_parked (next_request st) (accept_request st)).
  { intros e He. simpl in He. rewrite Hidle in He. destruct He. }
  pose proof (loop_follows_run w this (postPipeline this trigger)
                (next_request st) (accept_request st) Hfree) as H.
  rewrite script_never_spawns in H. simpl in H.
  change (deliver w this st (Incoming trigger))
    with (drive w (next_request st) (postPipeline this trigger)
                (accept_request st)).
  rewrite H. unfold finished.
  change (events_of (next_request st) ?s) with (events_in (next_request st) (journal s)).
  simpl journal. simpl escaped.
  rewrite events_in_app, events_in_own, sent_app.
  destruct (postPipeline_cases w this trigger (exec_calls st))
    as [Hc|[Hc|(t & _ & _ & Hc)]]; rewrite Hc.
  - simpl. destruct (sent _); reflexivity.
  - simpl. rewrite List.app_nil_r, List.existsb_app. simpl.
    rewrite Nat.eqb_refl, orb_true_r. destruct (sent _); reflexivity.
  - destruct (Js.strict_neq _ _).
    + simpl. destruct (sent _); reflexivity.
    + simpl. rewrite sent_respond. destruct (sent _); reflexivity.
Qed.

End WrittenIdle.



(** ** The pipeline as built *)

(** X1: the constructor starts with no steps and addPipelineStep appends.
    After any sequence of calls the controller holds exactly the steps
    added, in the order of the calls, with the configuration and the TLS
    material of the constructor unchanged; and in an authorised run the
    first step added is the first one announced. *)
Theorem X1_steps_are_kept_in_the_order_added
    (readFileSync : string -> string) (cfg : Controller.IConfig)
    (steps : list Controller.IPipelineStep) :
  Controller.pipelineSteps
    (add_all (Controller.constructor readFileSync cfg) steps) = steps
  /\ Controller.config
       (add_all (Controller.constructor readFileSync cfg) steps) = cfg
  /\ Controller.tlsOptions
       (add_all (Controller.constructor readFileSync cfg) steps)
     = Controller.MkTls (readFileSync (Controller.tlsKey cfg))
                        (readFileSync (Controller.tlsCertificate cfg))
  /\ forall (w : World) (n : nat) (t : string)
            (step : Controller.IPipelineStep)
            (rest : list Controller.IPipelineStep),
       steps = step :: rest ->
       valid_trigger w (add_all (Controller.constructor readFileSync cfg) steps) t ->
       exists evs : list Event,
         trace (run w n (Controller.postPipeline
                           (add_all (Controller.constructor readFileSync cfg)
                                    steps)
                           (Some (Js.JString t))))
         = EvHmac (Controller.pipelineName cfg) t
             :: EvGetEnv "TRIGGER_TOKEN" :: announce step :: evs.
Proof.
  destruct (add_all_steps steps (Controller.constructor readFileSync cfg))
    as (Hs & Hc & Ht).
  simpl in Hs, Hc, Ht.
  split; [exact Hs|split; [exact Hc|split; [exact Ht|]]].
  intros w n t step rest Hsteps [Hne Htok].
  rewrite (run_postPipeline_string w _ t n Hne).
  apply strict_neq_false in Htok. rewrite Htok, run_respond, Hc.
  unfold Controller.executePipelineSteps. rewrite Hs, Hsteps.
  destruct (child_process_exec w n (Controller.command step)
                               (Controller.environmentVariables step))
    as [e|out code] eqn:Hx.
  - rewrite (run_steps_cons_fault w _ _ _ _ Hx). simpl. eexists. reflexivity.
  - destruct (Js.is_zero code) eqn:Hz.
    + destruct code as [[|p|p]|]; try discriminate Hz.
      rewrite (run_steps_cons_zero w _ _ _ _ Hx). simpl. eexists. reflexivity.
    + rewrite (run_steps_cons_nonzero w _ _ _ _ _ Hx Hz). simpl.
      eexists. reflexivity.
Qed.

Lemma X1_witness :
  exists evs : list Event,
    trace (run Sample.as_written 0%nat
               (Controller.postPipeline
                  (add_all (Controller.constructor (fun _ => "") Sample.argv)
                           Sample.lint_then_test)
                  (Some (Js.JString "go"))))
    = EvHmac "release" "go" :: EvGetEnv "TRIGGER_TOKEN"
        :: announce {| Controller.name := "Lint";
                       Controller.command := "npm run lint";
                       Controller.environmentVariables := ∅ |} :: evs.
Proof.
  refine (proj2 (proj2 (proj2
            (X1_steps_are_kept_in_the_order_added (fun _ => "") Sample.argv
               Sample.lint_then_test)))
            Sample.as_written 0%nat "go" _ _ _ _).
  - reflexivity.
  - split; [discriminate|vm_compute; reflexivity].
Defined.
